(** * Touch-telemetry link: sensor node and USB hub node

    A shallow embedding of [src/sensor-node.cpp] and [src/usb-hub-node.cpp].

    - Machine integers are [Z] with the wrap-around of each C type written
      out ([u8], [u16], [u32], [s32]).
    - Bytes are [Byte.byte]; multi-byte fields of the packed struct are laid
      out little-endian (the ESP32 is a little-endian target) with coqutil's
      [le_split] / [le_combine].
    - [float] is IEEE-754 binary32 ([SpecFloat] at precision 24, emax 128),
      every source-level operation rounding to nearest-even.
    - C arrays are lists read with [!!!] and written with [<[i:=x]>].
    - The serial port is the [string] of characters written to it.
    - What the hardware supplies is an input: the station MAC, the uptime
      behind [millis()], the value of each [touchRead] call, and the
      datagrams the radio delivers to [onRecv].
    - A receive callback and a pass of [loop] are steps that do not
      interleave; radio bring-up and the hub's one-off [HUB_MAC] line in
      [setup] are left out. *)

From Stdlib Require Import ZArith Lia String Ascii SpecFloat.
From coqutil Require Import Byte Word.LittleEndianList.
From stdpp Require Import base list.

Local Open Scope Z_scope.

(** ** Machine integers *)

Definition u8 (z : Z) : Z := z mod 2 ^ 8.
Definition u16 (z : Z) : Z := z mod 2 ^ 16.
Definition u32 (z : Z) : Z := z mod 2 ^ 32.
(** [int] and [long] are both 32-bit two's complement on the ESP32. *)
Definition s32 (z : Z) : Z := (z + 2 ^ 31) mod 2 ^ 32 - 2 ^ 31.

#[global] Instance byte_inhabited : Inhabited byte := populate Byte.x00.

(** [memcpy(dst, src, k)]: the first [k] bytes of [dst] are replaced by the
    first [k] bytes of [src]; the rest of [dst] is left as it was. *)
Definition memcpy (dst src : list byte) (k : nat) : list byte :=
  take k src ++ drop k dst.

(** ** The packed struct [TouchPacket] (identical on both nodes) *)

Definition MAX_CH : nat := 32.

(** Field offsets and sizes under [#pragma pack(push,1)]. *)
Definition sizeof_uint8 : Z := 1.
Definition sizeof_uint16 : Z := 2.
Definition sizeof_uint32 : Z := 4.
Definition sizeof_ver : Z := sizeof_uint8.
Definition sizeof_n : Z := sizeof_uint8.
Definition sizeof_id : Z := 3 * sizeof_uint8.
Definition sizeof_seq : Z := sizeof_uint16.
Definition sizeof_ms : Z := sizeof_uint32.
Definition sizeof_TouchPacket : Z :=
  sizeof_ver + sizeof_n + sizeof_id + sizeof_seq + sizeof_ms
  + Z.of_nat MAX_CH * sizeof_uint16.

Definition off_ver : nat := 0.
Definition off_n : nat := 1.
Definition off_id : nat := 2.
Definition off_seq : nat := 5.
Definition off_ms : nat := 7.
Definition off_v (i : nat) : nat := 11 + 2 * i.

(** Field reads of a [TouchPacket] held as its memory image, which is also
    how the fields of a datagram on the wire are read. *)
Definition p_ver (p : list byte) : Z := byte.unsigned (p !!! off_ver).
Definition p_n (p : list byte) : Z := byte.unsigned (p !!! off_n).
Definition p_id (p : list byte) (k : nat) : byte := p !!! (off_id + k)%nat.
Definition p_seq (p : list byte) : Z := le_combine (take 2 (drop off_seq p)).
Definition p_ms (p : list byte) : Z := le_combine (take 4 (drop off_ms p)).
Definition p_v (p : list byte) (i : nat) : Z :=
  le_combine (take 2 (drop (off_v i) p)).

(** ** Arduino [Print] *)

Definition LF : ascii := ascii_of_nat 10.
Definition comma : ascii := ascii_of_nat 44.

Definition digit_char (d : Z) : ascii :=
  if d <? 10 then ascii_of_nat (Z.to_nat (48 + d))
  else ascii_of_nat (Z.to_nat (65 + d - 10)).

(** [Print::printNumber(n, 10)]: the do-while loop that peels decimal digits
    off the low end and prepends them to the buffer. *)
Fixpoint printNumber_loop (fuel : nat) (n : Z) (buf : string) : string :=
  let buf' := String (digit_char (n mod 10)) buf in
  let n' := n / 10 in
  match fuel with
  | O => buf'
  | S fuel' => if n' =? 0 then buf' else printNumber_loop fuel' n' buf'
  end.

Definition printNumber (n : Z) : string :=
  printNumber_loop (Z.to_nat (Z.log2 n)) n EmptyString.

(** [Print::print(unsigned long n)] in base 10 is [printNumber n];
    [Print::print(long n)] writes a minus sign first for a negative value. *)
Definition print_int (n : Z) : string :=
  if n <? 0 then String (ascii_of_nat 45) (printNumber (- n))
  else printNumber n.

(** [printf("%02X", b)] for a [uint8_t] argument. *)
Definition hex2 (b : byte) : string :=
  let z := byte.unsigned b in
  String (digit_char (z / 16)) (String (digit_char (z mod 16)) EmptyString).

(** ** Hub node *)

Module Hub.

(** The globals: [pktReady], [pkt] (as its 75-byte memory image, since
    [onRecv] writes it with [memcpy]) and [lastSender]. *)
Record state := State {
  pktReady : bool;
  pkt : list byte;
  lastSender : list byte
}.

(** Static storage is zero-initialised. *)
Definition boot : state :=
  State false (replicate (Z.to_nat sizeof_TouchPacket) Byte.x00)
        (replicate 6 Byte.x00).

(** [onRecv(mac, data, len)]; the radio layer calls it with [len] the
    number of payload bytes at [data]. *)
Definition onRecv (mac data : list byte) (s : state) : state :=
  let len := Z.of_nat (length data) in
  if len <? sizeof_uint8 * 2 + 3 + sizeof_uint16 + sizeof_uint32 then s
  else
    State true
          (memcpy (pkt s) data (Z.to_nat (Z.min len sizeof_TouchPacket)))
          (memcpy (lastSender s) mac 6).

(** The [for (int i = 0; i < p.n && i < 32; i++)] loop of [loop]. The
    guard [i < 32] bounds the number of iterations by 32. *)
Fixpoint print_channels (fuel : nat) (i : nat) (p : list byte) : string :=
  match fuel with
  | O => EmptyString
  | S fuel' =>
      if (Z.of_nat i <? p_n p) && (Z.of_nat i <? 32) then
        String comma (print_int (p_v p i) ++ print_channels fuel' (S i) p)%string
      else EmptyString
  end.

Definition macbuf (m : list byte) : string :=
  (hex2 (m !!! 0%nat) ++ hex2 (m !!! 1%nat) ++ hex2 (m !!! 2%nat)
   ++ hex2 (m !!! 3%nat) ++ hex2 (m !!! 4%nat) ++ hex2 (m !!! 5%nat))%string.

(** The text [loop] writes for a snapshot [p], [m] of the mailbox. *)
Definition line (p m : list byte) : string :=
  ("touch," ++ macbuf m ++ String comma
     (hex2 (p_id p 0) ++ hex2 (p_id p 1) ++ hex2 (p_id p 2) ++ String comma
     (print_int (p_seq p) ++ String comma
     (printNumber (p_ms p) ++ String comma
     (print_int (p_n p) ++ print_channels 32 0 p
      ++ String LF EmptyString)))))%string.

(** [loop()]: the new globals and the characters written to [Serial]. *)
Definition loop (s : state) : state * string :=
  if negb (pktReady s) then (s, EmptyString)
  else
    let p := pkt s in
    let m := memcpy (replicate 6 Byte.x00) (lastSender s) 6 in
    (State false (pkt s) (lastSender s), line p m).

(** The node's life after [setup]: receive callbacks and passes of
    [loop], in the order they happen; the output is everything written
    to [Serial]. *)
Inductive event :=
| Recv (mac data : list byte)
| Loop.

Fixpoint run (evs : list event) (s : state) : state * string :=
  match evs with
  | [] => (s, EmptyString)
  | Recv mac data :: evs' => run evs' (onRecv mac data s)
  | Loop :: evs' =>
      let '(s1, out) := loop s in
      let '(s2, outs) := run evs' s1 in
      (s2, (out ++ outs)%string)
  end.

(** The channel values the loop of [loop] visits: [p.v[i]] for every
    [i] with [i < p.n && i < 32]. *)
Definition channels (p : list byte) : list Z :=
  map (p_v p) (seq 0 (Z.to_nat (Z.min (p_n p) 32))).

(** The fields in front of the channel values. *)
Definition id6 (p : list byte) : string :=
  (hex2 (p_id p 0) ++ hex2 (p_id p 1) ++ hex2 (p_id p 2))%string.
Definition header (p m : list byte) : list string :=
  ["touch"%string; macbuf m; id6 p;
   print_int (p_seq p); printNumber (p_ms p); print_int (p_n p)].

(** The sizes of the two buffers, [TouchPacket pkt] and
    [uint8_t lastSender[6]]. *)
Definition wf (s : state) : Prop :=
  length (pkt s) = Z.to_nat sizeof_TouchPacket /\ length (lastSender s) = 6%nat.

(** Whether [onRecv] gets past its length test. *)
Definition accepts (data : list byte) : bool :=
  negb (Z.of_nat (length data)
        <? sizeof_uint8 * 2 + 3 + sizeof_uint16 + sizeof_uint32).

(** How many of the events are datagrams that [onRecv] accepts. *)
Fixpoint accepted (evs : list event) : nat :=
  match evs with
  | [] => 0%nat
  | Recv _ data :: evs' => ((if accepts data then 1 else 0) + accepted evs')%nat
  | Loop :: evs' => accepted evs'
  end.

(** [setup()], as far as the serial port sees it: [esp_now_init_ok] is
    whether [esp_now_init()] returned [ESP_OK], [mac] what [esp_read_mac]
    delivers. On failure the node prints one message with [println] and
    spins for ever; otherwise it prints its MAC and goes on to [loop]. *)
Inductive boot_result :=
| Halted (out : string)
| Ready (out : string).

Definition println (t : string) : string :=
  (t ++ String (ascii_of_nat 13) (String LF EmptyString))%string.

Definition colon : string := String (ascii_of_nat 58) EmptyString.

Definition setup (esp_now_init_ok : bool) (mac : list byte) : boot_result :=
  if negb esp_now_init_ok then Halted (println "ESP-NOW init failed")
  else
    Ready ("HUB_MAC " ++ hex2 (mac !!! 0%nat) ++ colon ++ hex2 (mac !!! 1%nat)
           ++ colon ++ hex2 (mac !!! 2%nat) ++ colon ++ hex2 (mac !!! 3%nat)
           ++ colon ++ hex2 (mac !!! 4%nat) ++ colon ++ hex2 (mac !!! 5%nat)
           ++ String LF EmptyString)%string.

Definition boot_output (r : boot_result) : string :=
  match r with Halted out => out | Ready out => out end.

End Hub.

(** ** IEEE-754 binary32 *)

Module F32.

Definition prec : Z := 24.
Definition emax : Z := 128.

Definition float : Type := spec_float.

Definition add : float -> float -> float := SFadd prec emax.
Definition sub : float -> float -> float := SFsub prec emax.
Definition mul : float -> float -> float := SFmul prec emax.
Definition div : float -> float -> float := SFdiv prec emax.

(** Conversion of an integer to [float] (round to nearest-even). *)
Definition of_int (z : Z) : float := binary_normalize prec emax z 0 false.

Definition zero : float := S754_zero false.

(** The value of a finite [float] rounded to the nearest integer, halfway
    cases away from zero; [None] for infinities and NaN. *)
Definition round_half_away (x : float) : option Z :=
  match x with
  | S754_zero _ => Some 0
  | S754_finite s m e =>
      let mag := if 0 <=? e then Z.pos m * 2 ^ e
                 else (2 * Z.pos m + 2 ^ (- e)) / 2 ^ (1 - e) in
      Some (if s then - mag else mag)
  | _ => None
  end.

End F32.

#[global] Instance float_inhabited : Inhabited F32.float := populate F32.zero.

(** A counted loop [for (int i = 0; i < cnt; i++) body], started at [i]. *)
Fixpoint for_loop {A : Type} (cnt i : nat) (body : nat -> A -> A) (a : A) : A :=
  match cnt with
  | O => a
  | S cnt' => for_loop cnt' (S i) body (body i a)
  end.

(** ** Sensor node *)

Module Sensor.

Record TouchPacket := Packet {
  pkt_ver : Z;
  pkt_n : Z;
  pkt_id : list byte;
  pkt_seq : Z;
  pkt_ms : Z;
  pkt_v : list Z
}.

(** The memory image of the packed struct: no padding, little-endian. *)
Definition image (p : TouchPacket) : list byte :=
  [byte.of_Z (pkt_ver p); byte.of_Z (pkt_n p)]
  ++ pkt_id p
  ++ le_split 2 (pkt_seq p)
  ++ le_split 4 (pkt_ms p)
  ++ flat_map (le_split 2) (pkt_v p).

(** The globals of the sketch, with the function-static [lastSend]. *)
Record state := State {
  pkt : TouchPacket;
  baseline : list F32.float;
  filt : list F32.float;
  seq : Z;
  mac_sta : list byte;
  lastSend : Z
}.

Definition set_pkt (p : TouchPacket) (s : state) : state :=
  State p (baseline s) (filt s) (seq s) (mac_sta s) (lastSend s).
Definition set_baseline (b : list F32.float) (s : state) : state :=
  State (pkt s) b (filt s) (seq s) (mac_sta s) (lastSend s).
Definition set_filt (f : list F32.float) (s : state) : state :=
  State (pkt s) (baseline s) f (seq s) (mac_sta s) (lastSend s).
Definition set_seq (q : Z) (s : state) : state :=
  State (pkt s) (baseline s) (filt s) q (mac_sta s) (lastSend s).
Definition set_mac_sta (m : list byte) (s : state) : state :=
  State (pkt s) (baseline s) (filt s) (seq s) m (lastSend s).
Definition set_lastSend (t : Z) (s : state) : state :=
  State (pkt s) (baseline s) (filt s) (seq s) (mac_sta s) t.

(** Static storage is zero-initialised. *)
Definition boot : state :=
  State (Packet 0 0 (replicate 3 Byte.x00) 0 0 (replicate MAX_CH 0))
        (replicate MAX_CH F32.zero) (replicate MAX_CH F32.zero)
        0 (replicate 6 Byte.x00) 0.

Definition BCAST : list byte := replicate 6 Byte.xff.

(** [0.2f], [0.0015f] and [1.0f] as the binary32 values the literals
    denote. *)
Definition LPF_ALPHA : F32.float := S754_finite false 13421773 (-26).
Definition BASELINE_ADAPT : F32.float := S754_finite false 12884902 (-33).
Definition one : F32.float := F32.of_int 1.

(** The arguments of one [esp_now_send] call; [data] is the [len] bytes
    found at the pointer passed in. *)
Record send_call := Send {
  peer_addr : list byte;
  data : list byte;
  len : Z
}.

(** What the environment supplies during one pass of [loop]: the uptime
    in milliseconds (unwrapped) and the value returned by the [i]-th
    [touchRead] call, that is the reading of [TOUCH_PINS[i]]. *)
Record tick := Tick {
  uptime : Z;
  touchRead : nat -> Z
}.

Section Config.

(** The configured pin list and send rate. *)
Variable TOUCH_PINS : list Z.
Variable TARGET_HZ : Z.

(** [lroundf] is specified only where the rounded value fits a [long];
    what the platform returns elsewhere is left open. *)
Variable lroundf_other : F32.float -> Z.

Definition lroundf (x : F32.float) : Z :=
  match F32.round_half_away x with
  | Some z => if (- 2 ^ 31 <=? z) && (z <? 2 ^ 31) then z
              else lroundf_other x
  | None => lroundf_other x
  end.

Definition NUM_CH : nat := Nat.min (length TOUCH_PINS) MAX_CH.

(** [setup()]: [mac] is what [esp_read_mac] delivers, [rd i k] the
    [k]-th calibration reading of channel [i]. *)
Definition calibrate (rd : nat -> nat -> Z) (i : nat) (s : state) : state :=
  let sum := for_loop 32 0 (fun k acc => s32 (acc + rd i k)) 0 in
  let s1 := set_baseline
              (<[i := F32.div (F32.of_int sum) (F32.of_int 32)]> (baseline s)) s in
  set_filt (<[i := baseline s1 !!! i]> (filt s1)) s1.

Definition setup (mac : list byte) (rd : nat -> nat -> Z) (s : state) : state :=
  let s1 := set_mac_sta (memcpy (mac_sta s) mac 6) s in
  let p := pkt s1 in
  let p1 := Packet 1 (u8 (Z.of_nat NUM_CH))
                   [mac_sta s1 !!! 3%nat; mac_sta s1 !!! 4%nat; mac_sta s1 !!! 5%nat]
                   (pkt_seq p) (pkt_ms p) (pkt_v p) in
  for_loop NUM_CH 0 (calibrate rd) (set_pkt p1 s1).

(** [(1.0f - LPF_ALPHA) * f + LPF_ALPHA * raw], with [raw] an [int]
    converted to [float]. *)
Definition lpf (f : F32.float) (raw : Z) : F32.float :=
  F32.add (F32.mul (F32.sub one LPF_ALPHA) f)
          (F32.mul LPF_ALPHA (F32.of_int raw)).

(** [(1.0f - BASELINE_ADAPT) * b + BASELINE_ADAPT * f]. *)
Definition track (b f : F32.float) : F32.float :=
  F32.add (F32.mul (F32.sub one BASELINE_ADAPT) b)
          (F32.mul BASELINE_ADAPT f).

(** One iteration of the read-and-filter loop. *)
Definition filter_step (rd : nat -> Z) (i : nat) (s : state) : state :=
  let raw := s32 (rd i) in
  let s1 := set_filt (<[i := lpf (filt s !!! i) raw]> (filt s)) s in
  set_baseline (<[i := track (baseline s1 !!! i) (filt s1 !!! i)]> (baseline s1)) s1.

(** One iteration of the loop that fills [pkt.v]. *)
Definition clamp16 (v : Z) : Z :=
  let v1 := if v <? 0 then 0 else v in
  if 65535 <? v1 then 65535 else v1.

Definition pack_step (i : nat) (s : state) : state :=
  let v := clamp16 (s32 (lroundf (filt s !!! i))) in
  let p := pkt s in
  set_pkt (Packet (pkt_ver p) (pkt_n p) (pkt_id p) (pkt_seq p) (pkt_ms p)
                  (<[i := u16 v]> (pkt_v p))) s.

Definition periodMs : Z := if 0 <? TARGET_HZ then 1000 / TARGET_HZ else 0.

Definition esp_now_send (addr : list byte) (p : TouchPacket) (n : Z) : send_call :=
  Send addr (take (Z.to_nat n) (image p)) n.

(** The [len] computed before the send. *)
Definition wire_len (p : TouchPacket) : Z :=
  sizeof_ver + sizeof_n + sizeof_id + sizeof_seq + sizeof_ms
  + pkt_n p * sizeof_uint16.

(** [loop()]: the new globals and the radio call made, if any. *)
Definition loop (t : tick) (s : state) : state * option send_call :=
  let now := u32 (uptime t) in
  let s1 := for_loop NUM_CH 0 (filter_step (touchRead t)) s in
  if (periodMs =? 0) || (periodMs <=? u32 (now - lastSend s1)) then
    let s2 := set_lastSend now s1 in
    let p := pkt s2 in
    let s3 := set_pkt (Packet (pkt_ver p) (pkt_n p) (pkt_id p) (pkt_seq p) now
                              (pkt_v p)) s2 in
    let p3 := pkt s3 in
    let s4 := set_seq (u16 (seq s3 + 1))
                (set_pkt (Packet (pkt_ver p3) (pkt_n p3) (pkt_id p3) (seq s3)
                                 (pkt_ms p3) (pkt_v p3)) s3) in
    let s5 := for_loop NUM_CH 0 pack_step s4 in
    (s5, Some (esp_now_send BCAST (pkt s5) (wire_len (pkt s5))))
  else (s1, None).

(** The globals after the read-and-filter part of a pass, and whether the
    pass then sends. *)
Definition filtered (t : tick) (s : state) : state :=
  for_loop NUM_CH 0 (filter_step (touchRead t)) s.

Definition due (t : tick) (s : state) : bool :=
  (periodMs =? 0)
  || (periodMs <=? u32 (u32 (uptime t) - lastSend (filtered t s))).

(** The sketch run over a sequence of loop passes: the final globals
    and, pass by pass, the radio call made. *)
Fixpoint run (ts : list tick) (s : state) : state * list (option send_call) :=
  match ts with
  | [] => (s, [])
  | t :: ts' =>
      let '(s1, o) := loop t s in
      let '(s2, os) := run ts' s1 in
      (s2, o :: os)
  end.

(** The globals at the start of pass [j] of a run. *)
Definition state_at (ts : list tick) (s : state) (j : nat) : state :=
  fst (run (take j ts) s).

(** What holds of the globals from the end of [setup] on: the declared
    channel count, the array sizes and the range of the counter. *)
Definition inv (s : state) : Prop :=
  pkt_n (pkt s) = Z.of_nat NUM_CH
  /\ length (pkt_id (pkt s)) = 3%nat
  /\ length (pkt_v (pkt s)) = MAX_CH
  /\ length (filt s) = MAX_CH
  /\ length (baseline s) = MAX_CH
  /\ 0 <= seq s < 2 ^ 16.

(** The globals the sketch can be in at the start of a pass of [loop]. *)
Definition reachable (s : state) : Prop :=
  exists mac rd ts, s = fst (run ts (setup mac rd boot)).

End Config.

(** How many passes of a run made a radio call. *)
Fixpoint sends (os : list (option send_call)) : nat :=
  match os with
  | [] => 0%nat
  | Some _ :: os' => S (sends os')
  | None :: os' => sends os'
  end.

(** The [long s] accumulated over the 32 calibration readings [rd 0] ..
    [rd 31] of one channel. *)
Definition calibration_sum (rd : nat -> Z) : Z :=
  for_loop 32 0 (fun k acc => s32 (acc + rd k)) 0.

End Sensor.

(** ** Reading the serial stream back *)

Fixpoint string_forall (f : ascii -> bool) (s : string) : bool :=
  match s with
  | EmptyString => true
  | String a s' => f a && string_forall f s'
  end.

Definition is_digit (a : ascii) : bool :=
  let k := Z.of_nat (nat_of_ascii a) in (48 <=? k) && (k <=? 57).

Definition is_upper_hex (a : ascii) : bool :=
  let k := Z.of_nat (nat_of_ascii a) in
  is_digit a || ((65 <=? k) && (k <=? 70)).

(** Neither a field separator nor a line terminator. *)
Definition is_plain (a : ascii) : bool :=
  negb (Ascii.eqb a comma) && negb (Ascii.eqb a LF).

(** An unsigned decimal numeral without leading zeros. *)
Definition canonical_dec (s : string) : bool :=
  match s with
  | EmptyString => false
  | String a EmptyString => is_digit a
  | String a s' => is_digit a && negb (Ascii.eqb a "0") && string_forall is_digit s'
  end.

(** The number a decimal numeral denotes. *)
Fixpoint parse_dec_from (acc : Z) (s : string) : Z :=
  match s with
  | EmptyString => acc
  | String a s' => parse_dec_from (10 * acc + (Z.of_nat (nat_of_ascii a) - 48)) s'
  end.
Definition parse_dec : string -> Z := parse_dec_from 0.

(** The byte two hexadecimal digits denote. *)
Definition hex_val (a : ascii) : Z :=
  let k := Z.of_nat (nat_of_ascii a) in
  if k <=? 57 then k - 48 else k - 55.
Definition parse_hex2 (s : string) : option Z :=
  match s with
  | String a (String b EmptyString) => Some (16 * hex_val a + hex_val b)
  | _ => None
  end.

(** Splitting at every occurrence of a separator. *)
Fixpoint split_on (c : ascii) (s : string) : list string :=
  match s with
  | EmptyString => [EmptyString]
  | String a s' =>
      if Ascii.eqb a c then EmptyString :: split_on c s'
      else match split_on c s' with
           | f :: fs => String a f :: fs
           | [] => [String a EmptyString]
           end
  end.

(** The line without its terminator, when there is exactly one line feed and
    it comes last. *)
Fixpoint chomp (s : string) : option string :=
  match s with
  | EmptyString => None
  | String a s' =>
      if Ascii.eqb a LF then
        match s' with EmptyString => Some EmptyString | _ => None end
      else option_map (String a) (chomp s')
  end.

(** The comma-separated fields of one serial line. *)
Definition fields (l : string) : option (list string) :=
  option_map (split_on comma) (chomp l).

(** The channel fields are those after [touch,<mac>,<id>,<seq>,<ms>,<n>]. *)
Definition channel_fields (l : string) : option (list string) :=
  option_map (drop 6) (fields l).

(** ** Regular expressions over serial lines *)

Inductive regex :=
| Str (t : string)
| Class (f : ascii -> bool)
| Cat (r1 r2 : regex)
| Plus (r : regex)
| Rep (lo hi : nat) (r : regex).

(** [k] consecutive words of [L]. *)
Fixpoint power (L : string -> Prop) (k : nat) (s : string) : Prop :=
  match k with
  | O => s = EmptyString
  | S k' => exists s1 s2, s = (s1 ++ s2)%string /\ L s1 /\ power L k' s2
  end.

(** Whole-string matching ([^...$]). *)
Fixpoint lang (r : regex) (s : string) : Prop :=
  match r with
  | Str t => s = t
  | Class f => exists a, s = String a EmptyString /\ f a = true
  | Cat r1 r2 => exists s1 s2, s = (s1 ++ s2)%string /\ lang r1 s1 /\ lang r2 s2
  | Plus r1 => exists k, (1 <= k)%nat /\ power (lang r1) k s
  | Rep lo hi r1 => exists k, (lo <= k <= hi)%nat /\ power (lang r1) k s
  end.

Definition re_digits : regex := Plus (Class is_digit).
Definition re_hex (k : nat) : regex := Rep k k (Class is_upper_hex).
Definition re_comma : regex := Str (String comma EmptyString).

(** [^touch,[0-9A-F]{12},[0-9A-F]{6},\d+,\d+,\d+(,\d+){0,32}\n$] *)
Definition touch_re : regex :=
  Cat (Str "touch,")
 (Cat (re_hex 12) (Cat re_comma
 (Cat (re_hex 6) (Cat re_comma
 (Cat re_digits (Cat re_comma
 (Cat re_digits (Cat re_comma
 (Cat re_digits
 (Cat (Rep 0 32 (Cat re_comma re_digits))
      (Str (String LF EmptyString)))))))))))).

(** Every field preceded by a comma, as the channel loop writes them. *)
Fixpoint comma_each (fs : list string) : string :=
  match fs with
  | [] => EmptyString
  | f :: fs' => String comma (f ++ comma_each fs')%string
  end.

Definition all_plain (fs : list string) : Prop :=
  Forall (fun f => string_forall is_plain f = true) fs.

(** What the digit loop adds in front of the buffer. *)
Definition numeral_of (n : Z) (ds : string) : Prop :=
  string_forall is_digit ds = true
  /\ parse_dec ds = n
  /\ (n = 0 -> ds = "0"%string)
  /\ exists a ds', ds = String a ds' /\ (0 < n -> Ascii.eqb a "0" = false).

(** How often a character occurs in a string. *)
Fixpoint count_char (c : ascii) (s : string) : nat :=
  match s with
  | EmptyString => 0%nat
  | String a s' => ((if Ascii.eqb a c then 1 else 0) + count_char c s')%nat
  end.

(** The bytes a string of hexadecimal digit pairs denotes. *)
Fixpoint parse_hex_pairs (s : string) : list Z :=
  match s with
  | String a (String b rest) => (16 * hex_val a + hex_val b) :: parse_hex_pairs rest
  | _ => []
  end.

(** ** Concrete datagrams *)

Definition mac_A1 : list byte :=
  [Byte.xa1; Byte.xb2; Byte.xc3; Byte.xd4; Byte.xe5; Byte.xf6].

Definition header_bytes (n : Z) : list byte :=
  [Byte.x01; byte.of_Z n; Byte.xd4; Byte.xe5; Byte.xf6]
  ++ le_split 2 42 ++ le_split 4 123456.

(** Four channels at 5000: 19 bytes. *)
Definition datagram_4ch : list byte :=
  header_bytes 4 ++ flat_map (le_split 2) [5000; 5000; 5000; 5000].

(** A 10-byte payload, one byte short of the header. *)
Definition datagram_undersize : list byte := take 10 (header_bytes 4).

(** A 100-byte payload declaring 40 channels. *)
Definition datagram_oversize : list byte :=
  header_bytes 40 ++ flat_map (le_split 2) (map Z.of_nat (seq 1000 40))
  ++ replicate 9 Byte.xee.

(** A 13-byte payload declaring 4 channels but carrying only one. *)
Definition datagram_short : list byte :=
  header_bytes 4 ++ le_split 2 777.

(** ** A concrete sensor *)

(** Four pins, the default 250 Hz, every reading 5000. *)
Definition pins_4ch : list Z := [1; 2; 3; 4].
Definition lroundf_zero : F32.float -> Z := fun _ => 0.
Definition reads_5000 : nat -> Z := fun _ => 5000.
Definition sensor_4ch : Sensor.state :=
  Sensor.setup pins_4ch mac_A1 (fun _ _ => 5000) Sensor.boot.

(** Passes at uptime 10, 12 and 14 ms: with a 4 ms period the first and the
    third send, the second does not. *)
Definition ticks_10_12_14 : list Sensor.tick :=
  [Sensor.Tick 10 reads_5000; Sensor.Tick 12 reads_5000; Sensor.Tick 14 reads_5000].

(** The radio call recorded for a pass, when there is one. *)
Definition sent (o : option (option Sensor.send_call)) : Sensor.send_call :=
  match o with
  | Some (Some c) => c
  | _ => Sensor.Send [] [] 0
  end.

(** The datagram value of the 4-channel scenario. *)
Definition packet_4ch : Sensor.TouchPacket :=
  Sensor.Packet 1 4 [Byte.xd4; Byte.xe5; Byte.xf6] 42 123456 [5000; 5000; 5000; 5000].

(** * Properties *)

(** ** Strings *)

Section Strings.

Local Open Scope string_scope.

Lemma append_nil_r (s : string) : s ++ "" = s.
Proof. induction s as [|a s IH]; simpl; [reflexivity | now rewrite IH]. Qed.

Lemma append_assoc (s t u : string) : (s ++ t) ++ u = s ++ (t ++ u).
Proof. induction s as [|a s IH]; simpl; [reflexivity | now rewrite IH]. Qed.

Lemma string_forall_app f (s t : string) :
  string_forall f (s ++ t) = string_forall f s && string_forall f t.
Proof.
  induction s as [|a s IH]; simpl; [reflexivity|].
  rewrite IH. now rewrite andb_assoc.
Qed.

Lemma string_forall_impl (f g : ascii -> bool) (s : string) :
  (forall a, f a = true -> g a = true) ->
  string_forall f s = true -> string_forall g s = true.
Proof.
  intros Hfg. induction s as [|a s IH]; simpl; [reflexivity|].
  intros [Ha Hs]%andb_true_iff. rewrite (Hfg _ Ha). now apply IH.
Qed.

Lemma parse_dec_from_app acc (s t : string) :
  parse_dec_from acc (s ++ t) = parse_dec_from (parse_dec_from acc s) t.
Proof. revert acc. induction s as [|a s IH]; simpl; intros; [reflexivity | apply IH]. Qed.

End Strings.

(** ** Printing *)

Lemma digit_cases (d : Z) :
  0 <= d < 16 ->
  d = 0 \/ d = 1 \/ d = 2 \/ d = 3 \/ d = 4 \/ d = 5 \/ d = 6 \/ d = 7 \/
  d = 8 \/ d = 9 \/ d = 10 \/ d = 11 \/ d = 12 \/ d = 13 \/ d = 14 \/ d = 15.
Proof. lia. Qed.

Ltac each_digit d H :=
  let C := fresh in
  pose proof (digit_cases d H) as C;
  repeat (destruct C as [C | C]; [subst d | ]); try subst d.

Lemma digit_char_is_digit (d : Z) :
  0 <= d < 10 -> is_digit (digit_char d) = true.
Proof.
  intros H. assert (H16 : 0 <= d < 16) by lia.
  each_digit d H16; solve [reflexivity | lia].
Qed.

Lemma digit_char_is_upper_hex (d : Z) :
  0 <= d < 16 -> is_upper_hex (digit_char d) = true.
Proof. intros H. each_digit d H; reflexivity. Qed.

Lemma digit_char_val (d : Z) :
  0 <= d < 10 -> Z.of_nat (nat_of_ascii (digit_char d)) - 48 = d.
Proof.
  intros H. assert (H16 : 0 <= d < 16) by lia.
  each_digit d H16; solve [reflexivity | lia].
Qed.

Lemma digit_char_hex_val (d : Z) :
  0 <= d < 16 -> hex_val (digit_char d) = d.
Proof. intros H. each_digit d H; reflexivity. Qed.

Lemma digit_char_zero (d : Z) :
  0 <= d < 10 -> Ascii.eqb (digit_char d) "0" = true -> d = 0.
Proof.
  intros H. assert (H16 : 0 <= d < 16) by lia.
  each_digit d H16; solve [reflexivity | lia | discriminate].
Qed.

Lemma is_digit_plain (a : ascii) : is_digit a = true -> is_plain a = true.
Proof.
  unfold is_digit, is_plain. intros H.
  destruct (Ascii.eqb_spec a comma) as [->|_]; [discriminate H|].
  destruct (Ascii.eqb_spec a LF) as [->|_]; [discriminate H|]. reflexivity.
Qed.

Lemma is_upper_hex_plain (a : ascii) : is_upper_hex a = true -> is_plain a = true.
Proof.
  unfold is_upper_hex, is_digit, is_plain. intros H.
  destruct (Ascii.eqb_spec a comma) as [->|_]; [discriminate H|].
  destruct (Ascii.eqb_spec a LF) as [->|_]; [discriminate H|]. reflexivity.
Qed.

Lemma numeral_of_digit (d : Z) :
  0 <= d < 10 -> numeral_of d (String (digit_char d) EmptyString).
Proof.
  intros Hd. split; [|split; [|split]].
  - simpl. rewrite digit_char_is_digit by lia. reflexivity.
  - unfold parse_dec. simpl. apply digit_char_val. lia.
  - intros ->. reflexivity.
  - eexists _, _. split; [reflexivity|]. intros Hpos.
    destruct (Ascii.eqb (digit_char d) "0") eqn:E; [|reflexivity].
    apply digit_char_zero in E; lia.
Qed.

Lemma printNumber_loop_spec (fuel : nat) :
  forall (n : Z) (buf : string),
    0 <= n < 10 ^ (Z.of_nat fuel + 1) ->
    exists ds, printNumber_loop fuel n buf = (ds ++ buf)%string /\ numeral_of n ds.
Proof.
  induction fuel as [|fuel IH]; intros n buf Hn.
  - change (10 ^ (Z.of_nat 0 + 1)) with 10 in Hn.
    exists (String (digit_char n) EmptyString). simpl.
    rewrite (Z.mod_small n 10) by lia. split; [reflexivity|].
    now apply numeral_of_digit.
  - simpl. pose proof (Z.mod_pos_bound n 10 ltac:(lia)) as Hm.
    pose proof (Z.div_mod n 10 ltac:(lia)) as Hdm.
    destruct (Z.eqb_spec (n / 10) 0) as [Hz|Hnz].
    + assert (Hsmall : n mod 10 = n) by lia.
      exists (String (digit_char (n mod 10)) EmptyString). split; [reflexivity|].
      rewrite Hsmall. apply numeral_of_digit. lia.
    + assert (Hq : 0 <= n / 10 < 10 ^ (Z.of_nat fuel + 1)).
      { split; [apply Z.div_pos; lia|].
        apply Z.div_lt_upper_bound; [lia|].
        replace (Z.of_nat (S fuel) + 1) with (Z.succ (Z.of_nat fuel + 1)) in Hn by lia.
        rewrite Z.pow_succ_r in Hn by lia. lia. }
      destruct (IH (n / 10) (String (digit_char (n mod 10)) buf) Hq)
        as (ds & Eq & Hall & Hval & _ & a & ds' & -> & Hlead).
      exists (String a ds' ++ String (digit_char (n mod 10)) EmptyString)%string.
      split; [rewrite Eq, append_assoc; reflexivity|].
      split; [|split; [|split]].
      * rewrite string_forall_app, Hall. simpl.
        rewrite digit_char_is_digit by lia. reflexivity.
      * unfold parse_dec in *. rewrite parse_dec_from_app, Hval. simpl.
        rewrite digit_char_val by lia. lia.
      * intros ->. now contradiction Hnz.
      * eexists _, _. split; [reflexivity|]. intros _. apply Hlead.
        assert (0 <= n / 10) by lia. lia.
Qed.

Lemma log2_fuel (n : Z) : 0 <= n -> n < 10 ^ (Z.of_nat (Z.to_nat (Z.log2 n)) + 1).
Proof.
  intros Hn. rewrite Z2Nat.id by apply Z.log2_nonneg.
  destruct (Z.eq_dec n 0) as [->|Hnz]; [reflexivity|].
  pose proof (Z.log2_spec n ltac:(lia)) as [_ Hlt].
  replace (Z.succ (Z.log2 n)) with (Z.log2 n + 1) in Hlt by lia.
  eapply Z.lt_le_trans; [exact Hlt|].
  apply Z.pow_le_mono_l. pose proof (Z.log2_nonneg n). lia.
Qed.

Lemma printNumber_spec (n : Z) : 0 <= n -> numeral_of n (printNumber n).
Proof.
  intros Hn. unfold printNumber.
  destruct (printNumber_loop_spec (Z.to_nat (Z.log2 n)) n EmptyString) as (ds & Eq & Hds).
  { split; [exact Hn | now apply log2_fuel]. }
  rewrite Eq, append_nil_r. exact Hds.
Qed.

Lemma print_int_nonneg (n : Z) : 0 <= n -> print_int n = printNumber n.
Proof. intros Hn. unfold print_int. destruct (Z.ltb_spec n 0); [lia | reflexivity]. Qed.

Lemma numeral_canonical (n : Z) (ds : string) :
  0 <= n -> numeral_of n ds -> canonical_dec ds = true.
Proof.
  intros Hn (Hall & _ & Hzero & a & ds' & -> & Hlead).
  destruct (Z.eq_dec n 0) as [Hz|Hnz]; [now rewrite (Hzero Hz)|].
  simpl in Hall. apply andb_true_iff in Hall as [Ha Hds'].
  simpl. rewrite Ha, Hds', Hlead by lia. now destruct ds'.
Qed.

Lemma numeral_nonempty (n : Z) (ds : string) : numeral_of n ds -> ds <> EmptyString.
Proof. intros (_ & _ & _ & a & ds' & -> & _). discriminate. Qed.

(** Every non-negative number prints as its canonical decimal numeral. *)
Lemma print_int_dec (n : Z) :
  0 <= n ->
  string_forall is_digit (print_int n) = true
  /\ canonical_dec (print_int n) = true
  /\ parse_dec (print_int n) = n
  /\ print_int n <> EmptyString.
Proof.
  intros Hn. rewrite print_int_nonneg by exact Hn.
  pose proof (printNumber_spec n Hn) as H.
  split; [apply H|]. split; [now apply (numeral_canonical n)|].
  split; [apply H | now apply (numeral_nonempty n)].
Qed.

Lemma hex2_spec (b : byte) :
  string_forall is_upper_hex (hex2 b) = true
  /\ String.length (hex2 b) = 2%nat
  /\ parse_hex2 (hex2 b) = Some (byte.unsigned b).
Proof.
  pose proof (byte.unsigned_range b) as Hb. change (2 ^ 8) with 256 in Hb.
  unfold hex2. set (z := byte.unsigned b) in *.
  assert (Hhi : 0 <= z / 16 < 16).
  { split; [apply Z.div_pos; lia | apply Z.div_lt_upper_bound; lia]. }
  pose proof (Z.mod_pos_bound z 16 ltac:(lia)) as Hlo.
  split; [|split].
  - simpl. now rewrite !digit_char_is_upper_hex by assumption.
  - reflexivity.
  - simpl. rewrite !digit_char_hex_val by assumption.
    f_equal. pose proof (Z.div_mod z 16 ltac:(lia)). lia.
Qed.

(** ** Lines and fields *)

Section Fields.

Local Open Scope string_scope.

Lemma comma_each_app (fs gs : list string) :
  comma_each (fs ++ gs) = comma_each fs ++ comma_each gs.
Proof.
  induction fs as [|f fs IH]; [reflexivity|].
  simpl. now rewrite IH, append_assoc.
Qed.

Lemma split_on_plain (s : string) :
  string_forall is_plain s = true -> split_on comma s = [s].
Proof.
  induction s as [|a s IH]; [reflexivity|]. simpl.
  intros [Ha Hs]%andb_true_iff. rewrite (IH Hs).
  unfold is_plain in Ha. apply andb_true_iff in Ha as [Ha _].
  apply negb_true_iff in Ha. now rewrite Ha.
Qed.

Lemma split_on_app (s t : string) :
  string_forall is_plain s = true ->
  split_on comma (s ++ String comma t) = s :: split_on comma t.
Proof.
  induction s as [|a s IH]; [reflexivity|]. simpl.
  intros [Ha Hs]%andb_true_iff. rewrite (IH Hs).
  unfold is_plain in Ha. apply andb_true_iff in Ha as [Ha _].
  apply negb_true_iff in Ha. now rewrite Ha.
Qed.

Lemma split_on_join (f : string) (fs : list string) :
  all_plain (f :: fs) -> split_on comma (f ++ comma_each fs) = f :: fs.
Proof.
  revert f. induction fs as [|g fs IH]; intros f Hall.
  - simpl. rewrite append_nil_r. apply split_on_plain. now inversion Hall.
  - simpl. inversion Hall as [|? ? Hf Hrest]; subst.
    rewrite split_on_app by exact Hf. now rewrite IH.
Qed.

Lemma chomp_app (s : string) :
  string_forall (fun a => negb (Ascii.eqb a LF)) s = true ->
  chomp (s ++ String LF EmptyString) = Some s.
Proof.
  induction s as [|a s IH]; [reflexivity|]. simpl.
  intros [Ha Hs]%andb_true_iff. apply negb_true_iff in Ha.
  now rewrite Ha, (IH Hs).
Qed.

Lemma no_LF_join (f : string) (fs : list string) :
  all_plain (f :: fs) ->
  string_forall (fun a => negb (Ascii.eqb a LF)) (f ++ comma_each fs) = true.
Proof.
  revert f. induction fs as [|g fs IH]; intros f Hall;
    inversion Hall as [|? ? Hf Hrest]; subst.
  - simpl. rewrite append_nil_r. revert Hf. apply string_forall_impl.
    intros a Ha. unfold is_plain in Ha. now apply andb_true_iff in Ha as [_ Ha].
  - simpl. rewrite string_forall_app. simpl. rewrite (IH g Hrest).
    rewrite andb_true_r. revert Hf. apply string_forall_impl.
    intros a Ha. unfold is_plain in Ha. now apply andb_true_iff in Ha as [_ Ha].
Qed.

(** A line made of plain fields reads back as exactly those fields. *)
Lemma fields_join (f : string) (fs : list string) :
  all_plain (f :: fs) ->
  fields ((f ++ comma_each fs) ++ String LF EmptyString) = Some (f :: fs).
Proof.
  intros Hall. unfold fields.
  rewrite chomp_app by now apply no_LF_join.
  simpl. now rewrite split_on_join.
Qed.

Lemma power_class (f : ascii -> bool) (s : string) :
  string_forall f s = true -> power (lang (Class f)) (String.length s) s.
Proof.
  induction s as [|a s IH]; [reflexivity|]. simpl.
  intros [Ha Hs]%andb_true_iff.
  exists (String a EmptyString), s. split; [reflexivity|].
  split; [now exists a | now apply IH].
Qed.

Lemma lang_digits (s : string) :
  string_forall is_digit s = true -> s <> EmptyString -> lang re_digits s.
Proof.
  intros Hs Hne. exists (String.length s). split; [|now apply power_class].
  destruct s; [congruence | simpl; lia].
Qed.

Lemma lang_hex (k : nat) (s : string) :
  string_forall is_upper_hex s = true -> String.length s = k -> lang (re_hex k) s.
Proof.
  intros Hs <-. exists (String.length s). split; [lia | now apply power_class].
Qed.

Lemma power_comma_each (fs : list string) :
  Forall (lang re_digits) fs ->
  power (lang (Cat re_comma re_digits)) (length fs) (comma_each fs).
Proof.
  induction 1 as [|f fs Hf _ IH]; [reflexivity|]. simpl.
  exists (String comma f), (comma_each fs).
  split; [|split; [|exact IH]].
  - clear. change (String comma (f ++ comma_each fs))
      with (String comma EmptyString ++ (f ++ comma_each fs)).
    change (String comma f) with (String comma EmptyString ++ f).
    now rewrite append_assoc.
  - exists (String comma EmptyString), f. now repeat split.
Qed.

End Fields.

(** ** Memory *)

Lemma memcpy_length (dst src : list byte) (k : nat) :
  (k <= length src)%nat -> (k <= length dst)%nat ->
  length (memcpy dst src k) = length dst.
Proof. intros. unfold memcpy. rewrite length_app, length_take, length_drop. lia. Qed.

Lemma memcpy_lookup_new (dst src : list byte) (k i : nat) :
  (i < k)%nat -> (k <= length src)%nat -> memcpy dst src k !! i = src !! i.
Proof.
  intros Hi Hk. unfold memcpy.
  rewrite lookup_app_l by (rewrite length_take; lia).
  now apply lookup_take_lt.
Qed.

Lemma memcpy_lookup_old (dst src : list byte) (k i : nat) :
  (k <= i)%nat -> (k <= length src)%nat -> memcpy dst src k !! i = dst !! i.
Proof.
  intros Hi Hk. unfold memcpy.
  rewrite lookup_app_r by (rewrite length_take; lia).
  rewrite length_take, lookup_drop. f_equal. lia.
Qed.

(** A window of the destination that lies inside the copied prefix holds the
    source bytes. *)
Lemma memcpy_window_new (dst src : list byte) (k off w : nat) :
  (off + w <= k)%nat -> (k <= length src)%nat ->
  take w (drop off (memcpy dst src k)) = take w (drop off src).
Proof.
  intros Hw Hk. apply list_eq. intros i.
  rewrite !lookup_take. destruct (decide (i < w)%nat); [|reflexivity].
  rewrite !lookup_drop. apply memcpy_lookup_new; lia.
Qed.

(** A window that starts at or beyond the copied prefix keeps the old bytes. *)
Lemma memcpy_window_old (dst src : list byte) (k off w : nat) :
  (k <= off)%nat -> (k <= length src)%nat ->
  take w (drop off (memcpy dst src k)) = take w (drop off dst).
Proof.
  intros Hw Hk. apply list_eq. intros i.
  rewrite !lookup_take. destruct (decide (i < w)%nat); [|reflexivity].
  rewrite !lookup_drop. apply memcpy_lookup_old; lia.
Qed.

Lemma memcpy_total_new (dst src : list byte) (k i : nat) :
  (i < k)%nat -> (k <= length src)%nat -> memcpy dst src k !!! i = src !!! i.
Proof.
  intros. rewrite !list_lookup_total_alt. now rewrite memcpy_lookup_new.
Qed.

Lemma take_window {A : Type} (l : list A) (k off w : nat) :
  (off + w <= k)%nat -> take w (drop off (take k l)) = take w (drop off l).
Proof.
  intros Hw. apply list_eq. intros i.
  rewrite !lookup_take. destruct (decide (i < w)%nat); [|reflexivity].
  rewrite !lookup_drop, lookup_take.
  destruct (decide (off + i < k)%nat); [reflexivity | lia].
Qed.

Lemma take_total {A : Type} `{Inhabited A} (l : list A) (k i : nat) :
  (i < k)%nat -> take k l !!! i = l !!! i.
Proof. intros Hi. now rewrite !list_lookup_total_alt, lookup_take_lt. Qed.

(** ** Hub: the shape of a line *)

Lemma p_n_range (p : list byte) : 0 <= p_n p < 256.
Proof. apply byte.unsigned_range. Qed.

Lemma p_seq_range (p : list byte) : 0 <= p_seq p < 2 ^ 16.
Proof.
  unfold p_seq. pose proof (le_combine_bound (take 2 (drop off_seq p))) as H.
  pose proof (firstn_le_length 2 (drop off_seq p)) as Hl.
  split; [apply H|]. eapply Z.lt_le_trans; [apply H|].
  apply Z.pow_le_mono_r; lia.
Qed.

Lemma p_ms_range (p : list byte) : 0 <= p_ms p < 2 ^ 32.
Proof.
  unfold p_ms. pose proof (le_combine_bound (take 4 (drop off_ms p))) as H.
  pose proof (firstn_le_length 4 (drop off_ms p)) as Hl.
  split; [apply H|]. eapply Z.lt_le_trans; [apply H|].
  apply Z.pow_le_mono_r; lia.
Qed.

Lemma p_v_range (p : list byte) (i : nat) : 0 <= p_v p i < 2 ^ 16.
Proof.
  unfold p_v. pose proof (le_combine_bound (take 2 (drop (off_v i) p))) as H.
  pose proof (firstn_le_length 2 (drop (off_v i) p)) as Hl.
  split; [apply H|]. eapply Z.lt_le_trans; [apply H|].
  apply Z.pow_le_mono_r; lia.
Qed.

Lemma channels_length (p : list byte) :
  length (Hub.channels p) = Z.to_nat (Z.min (p_n p) 32).
Proof. unfold Hub.channels. now rewrite length_map, length_seq. Qed.

Lemma channels_lookup (p : list byte) (i : nat) :
  (i < Z.to_nat (Z.min (p_n p) 32))%nat ->
  Hub.channels p !! i = Some (p_v p i).
Proof.
  intros Hi. unfold Hub.channels.
  change (map (p_v p)) with (fmap (M := list) (p_v p)).
  rewrite list_lookup_fmap, lookup_seq_lt by exact Hi. reflexivity.
Qed.

(** The channel loop writes one comma and one number per visited channel. *)
Lemma print_channels_eq (p : list byte) (fuel : nat) :
  forall i : nat,
    (i + fuel = 32)%nat ->
    Hub.print_channels fuel i p
    = comma_each (map (fun j => print_int (p_v p j))
                      (seq i (Z.to_nat (Z.min (p_n p) 32) - i))).
Proof.
  pose proof (p_n_range p) as Hn.
  induction fuel as [|fuel IH]; intros i Hi.
  - replace (Z.to_nat (Z.min (p_n p) 32) - i)%nat with 0%nat by lia. reflexivity.
  - simpl. destruct (Z.ltb_spec (Z.of_nat i) (p_n p)) as [Hlt|Hge];
      destruct (Z.ltb_spec (Z.of_nat i) 32) as [Hlt'|Hge']; try lia; simpl.
    + replace (Z.to_nat (Z.min (p_n p) 32) - i)%nat
        with (S (Z.to_nat (Z.min (p_n p) 32) - S i)) by lia.
      simpl. rewrite IH by lia. reflexivity.
    + replace (Z.to_nat (Z.min (p_n p) 32) - i)%nat with 0%nat by lia. reflexivity.
Qed.

Lemma line_eq (p m : list byte) :
  Hub.line p m
  = (("touch" ++ comma_each (tail (Hub.header p m) ++ map print_int (Hub.channels p)))
     ++ String LF EmptyString)%string.
Proof.
  unfold Hub.line, Hub.header, Hub.channels, Hub.id6.
  rewrite print_channels_eq by reflexivity. rewrite Nat.sub_0_r.
  rewrite map_map. cbn [tail app comma_each].
  repeat (rewrite ?append_assoc; cbn [append]). reflexivity.
Qed.

Lemma hex_plain (s : string) :
  string_forall is_upper_hex s = true -> string_forall is_plain s = true.
Proof. apply string_forall_impl, is_upper_hex_plain. Qed.

Lemma dec_plain (n : Z) : 0 <= n -> string_forall is_plain (print_int n) = true.
Proof.
  intros Hn. eapply string_forall_impl; [apply is_digit_plain|].
  now apply print_int_dec.
Qed.

Lemma macbuf_spec (m : list byte) :
  string_forall is_upper_hex (Hub.macbuf m) = true
  /\ String.length (Hub.macbuf m) = 12%nat.
Proof.
  unfold Hub.macbuf. split.
  - rewrite !string_forall_app.
    now rewrite !(proj1 (hex2_spec _)).
  - rewrite !String.app_length. now rewrite !(proj1 (proj2 (hex2_spec _))).
Qed.

Lemma id6_spec (p : list byte) :
  string_forall is_upper_hex (Hub.id6 p) = true
  /\ String.length (Hub.id6 p) = 6%nat.
Proof.
  unfold Hub.id6. split.
  - rewrite !string_forall_app.
    now rewrite !(proj1 (hex2_spec _)).
  - rewrite !String.app_length. now rewrite !(proj1 (proj2 (hex2_spec _))).
Qed.

Lemma channels_nonneg (p : list byte) : Forall (fun v => 0 <= v < 2 ^ 16) (Hub.channels p).
Proof.
  unfold Hub.channels. apply List.Forall_forall. intros v Hv.
  apply in_map_iff in Hv as (i & <- & _). apply p_v_range.
Qed.

Lemma line_fields_plain (p m : list byte) :
  all_plain (Hub.header p m ++ map print_int (Hub.channels p)).
Proof.
  unfold all_plain. apply Forall_app. split.
  - unfold Hub.header. repeat apply Forall_cons_2; try apply Forall_nil_2.
    + reflexivity.
    + apply hex_plain, macbuf_spec.
    + apply hex_plain, id6_spec.
    + apply dec_plain, p_seq_range.
    + rewrite <- print_int_nonneg by apply p_ms_range. apply dec_plain, p_ms_range.
    + apply dec_plain, p_n_range.
  - apply List.Forall_forall. intros f Hf.
    apply in_map_iff in Hf as (v & <- & Hv).
    pose proof (channels_nonneg p) as Hall.
    rewrite List.Forall_forall in Hall. apply dec_plain. now apply Hall.
Qed.

(** Read back, a line is its six header fields followed by one decimal
    field per visited channel. *)
Lemma fields_line (p m : list byte) :
  fields (Hub.line p m) = Some (Hub.header p m ++ map print_int (Hub.channels p)).
Proof.
  rewrite line_eq.
  exact (fields_join "touch" _ (line_fields_plain p m)).
Qed.

Lemma channel_fields_line (p m : list byte) :
  channel_fields (Hub.line p m) = Some (map print_int (Hub.channels p)).
Proof. unfold channel_fields. now rewrite fields_line. Qed.

Lemma line_matches (p m : list byte) : lang touch_re (Hub.line p m).
Proof.
  assert (Hd : forall n, 0 <= n -> lang re_digits (print_int n)).
  { intros n Hn. apply lang_digits; now apply print_int_dec. }
  unfold Hub.line, touch_re.
  eexists _, _. split; [reflexivity|]. split; [reflexivity|].
  eexists _, _. split; [reflexivity|]. split; [apply lang_hex; apply macbuf_spec|].
  exists (String comma EmptyString). eexists. split; [reflexivity|]. split; [reflexivity|].
  exists (Hub.id6 p). eexists. split.
  { unfold Hub.id6. rewrite !append_assoc. reflexivity. }
  split; [apply lang_hex; apply id6_spec|].
  exists (String comma EmptyString). eexists. split; [reflexivity|]. split; [reflexivity|].
  eexists _, _. split; [reflexivity|]. split; [apply Hd, p_seq_range|].
  exists (String comma EmptyString). eexists. split; [reflexivity|]. split; [reflexivity|].
  eexists _, _. split; [reflexivity|].
  split; [rewrite <- print_int_nonneg by apply p_ms_range; apply Hd, p_ms_range|].
  exists (String comma EmptyString). eexists. split; [reflexivity|]. split; [reflexivity|].
  eexists _, _. split; [reflexivity|]. split; [apply Hd, p_n_range|].
  eexists _, _. split; [reflexivity|]. split; [|reflexivity].
  exists (length (map print_int (Hub.channels p))). split.
  - rewrite length_map, channels_length. pose proof (p_n_range p). lia.
  - rewrite print_channels_eq by reflexivity. rewrite Nat.sub_0_r.
    replace (map (fun j => print_int (p_v p j)) (seq 0 (Z.to_nat (Z.min (p_n p) 32))))
      with (map print_int (Hub.channels p))
      by (unfold Hub.channels; now rewrite map_map).
    apply power_comma_each. apply List.Forall_forall. intros f Hf.
    apply in_map_iff in Hf as (v & <- & Hv).
    pose proof (channels_nonneg p) as Hall. rewrite List.Forall_forall in Hall.
    apply Hd. now apply Hall.
Qed.

(** ** Hub: receive and serialise *)

Lemma onRecv_accept (mac data : list byte) (s : Hub.state) :
  (11 <= length data)%nat ->
  Hub.onRecv mac data s
  = Hub.State true
      (memcpy (Hub.pkt s) data (Nat.min (length data) 75))
      (memcpy (Hub.lastSender s) mac 6).
Proof.
  intros Hlen. unfold Hub.onRecv.
  change (sizeof_uint8 * 2 + 3 + sizeof_uint16 + sizeof_uint32) with 11.
  change sizeof_TouchPacket with 75.
  destruct (Z.ltb_spec (Z.of_nat (length data)) 11); [lia|].
  do 2 f_equal. lia.
Qed.

Lemma loop_ready (s : Hub.state) :
  Hub.pktReady s = true ->
  Hub.loop s
  = (Hub.State false (Hub.pkt s) (Hub.lastSender s),
     Hub.line (Hub.pkt s) (memcpy (replicate 6 Byte.x00) (Hub.lastSender s) 6)).
Proof. intros H. unfold Hub.loop. now rewrite H. Qed.

(** The local copy [m] of [lastSender] prints as [lastSender] itself. *)
Lemma macbuf_snapshot (l : list byte) :
  Hub.macbuf (memcpy (replicate 6 Byte.x00) l 6) = Hub.macbuf l.
Proof.
  unfold memcpy. change (drop 6 (replicate 6 Byte.x00)) with (@nil byte).
  rewrite app_nil_r. unfold Hub.macbuf.
  now rewrite !take_total by lia.
Qed.

(** C6: a payload shorter than the 11-byte header leaves the mailbox, the
    stored sender MAC and the ready flag as they were, so whatever the hub
    does afterwards, and in particular what it writes to the serial port,
    is what it would have done had the datagram never arrived. *)
Theorem onRecv_undersize_dropped (mac data : list byte) (s : Hub.state) :
  (length data < 11)%nat ->
  Hub.pkt (Hub.onRecv mac data s) = Hub.pkt s
  /\ Hub.lastSender (Hub.onRecv mac data s) = Hub.lastSender s
  /\ Hub.pktReady (Hub.onRecv mac data s) = Hub.pktReady s
  /\ (forall evs, Hub.run (Hub.Recv mac data :: evs) s = Hub.run evs s)
  /\ (Hub.pktReady s = false ->
      snd (Hub.loop (Hub.onRecv mac data s)) = EmptyString).
Proof.
  intros Hlen.
  assert (E : Hub.onRecv mac data s = s).
  { unfold Hub.onRecv.
    change (sizeof_uint8 * 2 + 3 + sizeof_uint16 + sizeof_uint32) with 11.
    destruct (Z.ltb_spec (Z.of_nat (length data)) 11); [reflexivity | lia]. }
  repeat split; try now rewrite E.
  - intros evs. simpl. now rewrite E.
  - intros Hr. rewrite E. unfold Hub.loop. now rewrite Hr.
Qed.

Lemma onRecv_undersize_ten_bytes :
  (length datagram_undersize < 11)%nat /\
  Hub.pkt (Hub.onRecv mac_A1 datagram_undersize Hub.boot) = Hub.pkt Hub.boot
  /\ Hub.lastSender (Hub.onRecv mac_A1 datagram_undersize Hub.boot)
     = Hub.lastSender Hub.boot
  /\ Hub.pktReady (Hub.onRecv mac_A1 datagram_undersize Hub.boot)
     = Hub.pktReady Hub.boot
  /\ (forall evs,
        Hub.run (Hub.Recv mac_A1 datagram_undersize :: evs) Hub.boot
        = Hub.run evs Hub.boot)
  /\ (Hub.pktReady Hub.boot = false ->
      snd (Hub.loop (Hub.onRecv mac_A1 datagram_undersize Hub.boot)) = EmptyString).
Proof.
  split; [vm_compute; lia|].
  apply (onRecv_undersize_dropped mac_A1 datagram_undersize Hub.boot).
  vm_compute. lia.
Defined.

(** C8: every line the hub writes matches
    [^touch,[0-9A-F]{12},[0-9A-F]{6},\d+,\d+,\d+(,\d+){0,32}\n$]; split at
    its commas it is the word touch, 12 upper-case hex digits, 6 upper-case
    hex digits, then seq, ms and n as canonical decimal numerals of the
    mailbox fields, then one canonical decimal numeral per channel, min(n, 32)
    of them, and a single line feed ends it. *)
Theorem line_format (s : Hub.state) :
  Hub.pktReady s = true ->
  let l := snd (Hub.loop s) in
  lang touch_re l
  /\ exists mac id sq ms n vs,
      fields l = Some ("touch"%string :: mac :: id :: sq :: ms :: n :: vs)
      /\ mac = Hub.macbuf (Hub.lastSender s)
      /\ id = Hub.id6 (Hub.pkt s)
      /\ (String.length mac = 12%nat /\ string_forall is_upper_hex mac = true)
      /\ (String.length id = 6%nat /\ string_forall is_upper_hex id = true)
      /\ (canonical_dec sq = true /\ parse_dec sq = p_seq (Hub.pkt s))
      /\ (canonical_dec ms = true /\ parse_dec ms = p_ms (Hub.pkt s))
      /\ (canonical_dec n = true /\ parse_dec n = p_n (Hub.pkt s))
      /\ Forall (fun v => canonical_dec v = true) vs
      /\ length vs = Z.to_nat (Z.min (p_n (Hub.pkt s)) 32).
Proof.
  intros Hr. rewrite loop_ready by exact Hr. cbn [snd].
  set (p := Hub.pkt s). set (m := memcpy _ _ _).
  split; [apply line_matches|].
  exists (Hub.macbuf m), (Hub.id6 p), (print_int (p_seq p)),
    (printNumber (p_ms p)), (print_int (p_n p)),
    (map print_int (Hub.channels p)).
  split; [apply fields_line|].
  split; [apply macbuf_snapshot|]. split; [reflexivity|].
  split; [split; apply macbuf_spec|].
  split; [split; apply id6_spec|].
  split; [split; apply print_int_dec, p_seq_range|].
  split; [rewrite <- print_int_nonneg by apply p_ms_range;
          split; apply print_int_dec, p_ms_range|].
  split; [split; apply print_int_dec, p_n_range|].
  split; [|now rewrite length_map, channels_length].
  apply List.Forall_forall. intros f Hf.
  apply in_map_iff in Hf as (v & <- & Hv).
  pose proof (channels_nonneg p) as Hall. rewrite List.Forall_forall in Hall.
  apply print_int_dec. now apply Hall.
Qed.

Lemma line_format_4ch :
  let s := Hub.onRecv mac_A1 datagram_4ch Hub.boot in
  let l := snd (Hub.loop s) in
  Hub.pktReady s = true /\
  lang touch_re l
  /\ exists mac id sq ms n vs,
      fields l = Some ("touch"%string :: mac :: id :: sq :: ms :: n :: vs)
      /\ mac = Hub.macbuf (Hub.lastSender s)
      /\ id = Hub.id6 (Hub.pkt s)
      /\ (String.length mac = 12%nat /\ string_forall is_upper_hex mac = true)
      /\ (String.length id = 6%nat /\ string_forall is_upper_hex id = true)
      /\ (canonical_dec sq = true /\ parse_dec sq = p_seq (Hub.pkt s))
      /\ (canonical_dec ms = true /\ parse_dec ms = p_ms (Hub.pkt s))
      /\ (canonical_dec n = true /\ parse_dec n = p_n (Hub.pkt s))
      /\ Forall (fun v => canonical_dec v = true) vs
      /\ length vs = Z.to_nat (Z.min (p_n (Hub.pkt s)) 32).
Proof.
  split; [reflexivity|].
  apply (line_format (Hub.onRecv mac_A1 datagram_4ch Hub.boot)). reflexivity.
Defined.

(** The line for the 4-channel datagram, character for character. *)
Example line_4ch :
  snd (Hub.loop (Hub.onRecv mac_A1 datagram_4ch Hub.boot))
  = ("touch,A1B2C3D4E5F6,D4E5F6,42,123456,4,5000,5000,5000,5000"
     ++ String LF EmptyString)%string.
Proof. reflexivity. Qed.

(** At boot every channel slot of the mailbox reads zero. *)
Lemma boot_channels_zero (i : nat) : p_v (Hub.pkt Hub.boot) i = 0.
Proof.
  unfold p_v, Hub.boot, Hub.pkt.
  rewrite drop_replicate, take_replicate.
  generalize (Nat.min 2 (Z.to_nat sizeof_TouchPacket - off_v i)). intros k.
  replace (replicate k Byte.x00) with (repeat Byte.x00 k);
    [apply le_combine_0|].
  induction k as [|k IH]; [reflexivity | simpl; now rewrite IH].
Qed.

(** C9: a datagram of at least 11 bytes is accepted whatever channel count
    it declares. When it is shorter than the channels it declares, the line
    still has min(n, 32) channel fields; the copy replaced exactly the first
    [len] bytes of the mailbox, and every channel whose two bytes lie at or
    beyond offset [len] is printed with the value the mailbox held before. *)
Theorem short_datagram_stale_channels (mac data : list byte) (s : Hub.state) :
  let len := Z.of_nat (length data) in
  let n := byte.unsigned (data !!! 1%nat) in
  let s' := Hub.onRecv mac data s in
  11 <= len ->
  len < 11 + 2 * Z.min n 32 ->
  Hub.pktReady s' = true
  /\ p_n (Hub.pkt s') = n
  /\ (forall j : nat, (j < length data)%nat -> Hub.pkt s' !! j = data !! j)
  /\ (forall j : nat, (length data <= j)%nat -> Hub.pkt s' !! j = Hub.pkt s !! j)
  /\ exists vs,
      channel_fields (snd (Hub.loop s')) = Some vs
      /\ length vs = Z.to_nat (Z.min n 32)
      /\ forall i : nat,
          Z.of_nat i < Z.min n 32 ->
          len <= 11 + 2 * Z.of_nat i ->
          vs !! i = Some (print_int (p_v (Hub.pkt s) i)).
Proof.
  intros len n s' Hlo Hhi. subst s'.
  rewrite onRecv_accept by lia.
  assert (Hk : Nat.min (length data) 75 = length data) by lia.
  rewrite Hk. cbn [Hub.pktReady Hub.pkt].
  assert (Hn : p_n (memcpy (Hub.pkt s) data (length data)) = n).
  { unfold p_n, off_n. rewrite memcpy_total_new by lia. reflexivity. }
  split; [reflexivity|]. split; [exact Hn|].
  split; [intros j Hj; apply memcpy_lookup_new; lia|].
  split; [intros j Hj; apply memcpy_lookup_old; lia|].
  rewrite loop_ready by reflexivity. cbn [snd Hub.pkt].
  rewrite channel_fields_line. eexists. split; [reflexivity|].
  split; [now rewrite length_map, channels_length, Hn|].
  intros i Hi Hstale.
  change (map print_int) with (fmap (M := list) print_int).
  rewrite list_lookup_fmap, channels_lookup by (rewrite Hn; lia).
  cbn [fmap option_fmap option_map]. do 2 f_equal.
  unfold p_v. f_equal. apply memcpy_window_old; unfold off_v; lia.
Qed.

Lemma short_datagram_after_4ch :
  let s := Hub.onRecv mac_A1 datagram_4ch Hub.boot in
  let len := Z.of_nat (length datagram_short) in
  let n := byte.unsigned (datagram_short !!! 1%nat) in
  let s' := Hub.onRecv mac_A1 datagram_short s in
  (11 <= len /\ len < 11 + 2 * Z.min n 32) /\
  Hub.pktReady s' = true
  /\ p_n (Hub.pkt s') = n
  /\ (forall j : nat, (j < length datagram_short)%nat ->
                     Hub.pkt s' !! j = datagram_short !! j)
  /\ (forall j : nat, (length datagram_short <= j)%nat ->
                     Hub.pkt s' !! j = Hub.pkt s !! j)
  /\ exists vs,
      channel_fields (snd (Hub.loop s')) = Some vs
      /\ length vs = Z.to_nat (Z.min n 32)
      /\ forall i : nat,
          Z.of_nat i < Z.min n 32 ->
          len <= 11 + 2 * Z.of_nat i ->
          vs !! i = Some (print_int (p_v (Hub.pkt s) i)).
Proof.
  split; [vm_compute; split; [discriminate | reflexivity]|].
  apply (short_datagram_stale_channels mac_A1 datagram_short
           (Hub.onRecv mac_A1 datagram_4ch Hub.boot)).
  - vm_compute. discriminate.
  - vm_compute. reflexivity.
Defined.

(** Two datagrams before one pass of [loop]: one line, for the later one. *)
Example overwritten_before_drain :
  snd (Hub.run [Hub.Recv mac_A1 datagram_4ch; Hub.Recv mac_A1 datagram_short;
                Hub.Loop; Hub.Loop] Hub.boot)
  = ("touch,A1B2C3D4E5F6,D4E5F6,42,123456,4,777,5000,5000,5000"
     ++ String LF EmptyString)%string.
Proof. reflexivity. Qed.

(** The same scenario run: the second line repeats three stale values. *)
Example short_datagram_lines :
  snd (Hub.run [Hub.Recv mac_A1 datagram_4ch; Hub.Loop;
                Hub.Recv mac_A1 datagram_short; Hub.Loop] Hub.boot)
  = ("touch,A1B2C3D4E5F6,D4E5F6,42,123456,4,5000,5000,5000,5000"
     ++ String LF
       ("touch,A1B2C3D4E5F6,D4E5F6,42,123456,4,777,5000,5000,5000"
        ++ String LF EmptyString))%string.
Proof. reflexivity. Qed.

(** For any mailbox declaring more than 32 channels the line carries 32
    channel fields, and its n field is the declared count as it stands. *)
Lemma line_n_field_declared (s : Hub.state) :
  Hub.pktReady s = true ->
  32 < p_n (Hub.pkt s) ->
  exists fs,
    fields (snd (Hub.loop s)) = Some fs
    /\ fs !! 5%nat = Some (print_int (p_n (Hub.pkt s)))
    /\ parse_dec (print_int (p_n (Hub.pkt s))) = p_n (Hub.pkt s)
    /\ length (drop 6 fs) = 32%nat.
Proof.
  intros Hr Hn. rewrite loop_ready by exact Hr. cbn [snd].
  rewrite fields_line. eexists. split; [reflexivity|].
  split; [reflexivity|].
  split; [apply print_int_dec, p_n_range|].
  cbn [Hub.header app skipn]. rewrite drop_0, length_map, channels_length. lia.
Qed.

(** C1, at the 100-byte datagram declaring 40 channels: the datagram is
    accepted, the line has exactly 32 channel fields, and the n field of
    the line reads 40, the declared count, not 32. *)
Theorem oversize_line_n_field :
  let s := Hub.onRecv mac_A1 datagram_oversize Hub.boot in
  length datagram_oversize = 100%nat
  /\ Hub.pktReady s = true
  /\ p_n (Hub.pkt s) = 40
  /\ exists fs,
      fields (snd (Hub.loop s)) = Some fs
      /\ fs !! 5%nat = Some "40"%string
      /\ fs !! 5%nat <> Some "32"%string
      /\ length (drop 6 fs) = 32%nat.
Proof.
  cbv zeta. split; [reflexivity|]. split; [reflexivity|]. split; [reflexivity|].
  eexists. split; [vm_compute; reflexivity|].
  split; [reflexivity|]. split; [discriminate | reflexivity].
Qed.

(** ** The packed layout *)

Lemma le_split_2 (z : Z) : le_split 2 z = [byte.of_Z z; byte.of_Z (Z.shiftr z 8)].
Proof. reflexivity. Qed.

Lemma chunk_window (v : list Z) :
  forall i : nat,
    (i < length v)%nat ->
    take 2 (drop (2 * i) (flat_map (le_split 2) v)) = le_split 2 (v !!! i).
Proof.
  induction v as [|x v IH]; intros i Hi; [simpl in Hi; lia|].
  destruct i as [|i].
  - reflexivity.
  - replace (2 * S i)%nat with (S (S (2 * i))) by lia.
    cbn [flat_map]. rewrite le_split_2. cbn [app skipn].
    rewrite IH by (simpl in Hi; lia). reflexivity.
Qed.

Section Image.

Variable p : Sensor.TouchPacket.
Hypothesis Hid : length (Sensor.pkt_id p) = 3%nat.

Lemma image_split :
  exists a b c,
    Sensor.pkt_id p = [a; b; c]
    /\ Sensor.image p
       = [byte.of_Z (Sensor.pkt_ver p); byte.of_Z (Sensor.pkt_n p); a; b; c]
         ++ le_split 2 (Sensor.pkt_seq p) ++ le_split 4 (Sensor.pkt_ms p)
         ++ flat_map (le_split 2) (Sensor.pkt_v p).
Proof.
  unfold Sensor.image.
  destruct (Sensor.pkt_id p) as [|a [|b [|c [|]]]]; try discriminate Hid.
  now exists a, b, c.
Qed.

Lemma image_length :
  length (Sensor.image p) = (11 + 2 * length (Sensor.pkt_v p))%nat.
Proof.
  destruct image_split as (a & b & c & _ & ->).
  rewrite !length_app, !length_le_split.
  rewrite (List.length_flat_map _ 2) by (intros; apply length_le_split).
  simpl. lia.
Qed.

Lemma image_ver : p_ver (Sensor.image p) = u8 (Sensor.pkt_ver p).
Proof. unfold p_ver. simpl. apply byte.unsigned_of_Z. Qed.

Lemma image_n : p_n (Sensor.image p) = u8 (Sensor.pkt_n p).
Proof. unfold p_n. simpl. apply byte.unsigned_of_Z. Qed.

Lemma image_id (k : nat) :
  (k < 3)%nat -> p_id (Sensor.image p) k = Sensor.pkt_id p !!! k.
Proof.
  intros Hk. unfold p_id. destruct image_split as (a & b & c & -> & ->).
  destruct k as [|[|[|k]]]; try reflexivity. lia.
Qed.

Lemma image_seq : p_seq (Sensor.image p) = u16 (Sensor.pkt_seq p).
Proof.
  unfold p_seq. destruct image_split as (a & b & c & _ & ->).
  cbn [app skipn off_seq]. rewrite drop_0.
  rewrite take_app_length' by (now rewrite length_le_split).
  apply le_combine_split.
Qed.

Lemma image_ms : p_ms (Sensor.image p) = u32 (Sensor.pkt_ms p).
Proof.
  unfold p_ms. destruct image_split as (a & b & c & _ & ->).
  rewrite le_split_2. cbn [app skipn off_ms]. rewrite drop_0.
  rewrite take_app_length' by (now rewrite length_le_split).
  apply le_combine_split.
Qed.

Lemma image_v (i : nat) :
  (i < length (Sensor.pkt_v p))%nat ->
  p_v (Sensor.image p) i = u16 (Sensor.pkt_v p !!! i).
Proof.
  intros Hi. unfold p_v, off_v. destruct image_split as (a & b & c & _ & ->).
  rewrite le_split_2.
  change (le_split 4 (Sensor.pkt_ms p))
    with [byte.of_Z (Sensor.pkt_ms p);
          byte.of_Z (Z.shiftr (Sensor.pkt_ms p) 8);
          byte.of_Z (Z.shiftr (Z.shiftr (Sensor.pkt_ms p) 8) 8);
          byte.of_Z (Z.shiftr (Z.shiftr (Z.shiftr (Sensor.pkt_ms p) 8) 8) 8)].
  cbn [app].
  replace (11 + 2 * i)%nat with (11 + (2 * i))%nat by lia.
  cbn [Nat.add skipn]. rewrite chunk_window by exact Hi.
  apply le_combine_split.
Qed.

End Image.

(** ** From the wire into the mailbox *)

Lemma wire_len_eq (p : Sensor.TouchPacket) :
  Sensor.wire_len p = 11 + 2 * Sensor.pkt_n p.
Proof.
  unfold Sensor.wire_len, sizeof_ver, sizeof_n, sizeof_id, sizeof_seq, sizeof_ms,
    sizeof_uint8, sizeof_uint16, sizeof_uint32. lia.
Qed.

(** The fields of a prefix of a memory image that the prefix covers. *)
Lemma prefix_fields (l : list byte) (k : nat) :
  (11 <= k)%nat ->
  p_ver (take k l) = p_ver l
  /\ p_n (take k l) = p_n l
  /\ (forall j, (j < 3)%nat -> p_id (take k l) j = p_id l j)
  /\ p_seq (take k l) = p_seq l
  /\ p_ms (take k l) = p_ms l
  /\ (forall i, (off_v i + 2 <= k)%nat -> p_v (take k l) i = p_v l i).
Proof.
  intros Hk. unfold p_ver, p_n, p_id, p_seq, p_ms, p_v, off_ver, off_n, off_id,
    off_seq, off_ms.
  repeat split; intros;
    rewrite ?take_total, ?take_window by lia; reflexivity.
Qed.

(** The fields of the mailbox after an accepted datagram that the datagram
    covers. *)
Lemma mailbox_fields (mac data : list byte) (s : Hub.state) :
  (11 <= length data)%nat ->
  let q := Hub.pkt (Hub.onRecv mac data s) in
  p_ver q = p_ver data
  /\ p_n q = p_n data
  /\ (forall j, (j < 3)%nat -> p_id q j = p_id data j)
  /\ p_seq q = p_seq data
  /\ p_ms q = p_ms data
  /\ (forall i, (off_v i + 2 <= Nat.min (length data) 75)%nat ->
                p_v q i = p_v data i).
Proof.
  intros Hlen q. subst q. rewrite onRecv_accept by exact Hlen. cbn [Hub.pkt].
  unfold p_ver, p_n, p_id, p_seq, p_ms, p_v, off_ver, off_n, off_id,
    off_seq, off_ms.
  repeat split; intros;
    rewrite ?memcpy_total_new, ?memcpy_window_new by lia; reflexivity.
Qed.

(** C3: a well-formed datagram value, laid out as the sensor's packed struct
    and cut to the 11 + 2n bytes the sensor sends, is read back by the hub,
    whatever its mailbox held before, with every field equal to the
    original and exactly the n channel values of the original. *)
Theorem datagram_round_trip (p : Sensor.TouchPacket) (mac : list byte) (s : Hub.state) :
  let n := Z.to_nat (Sensor.pkt_n p) in
  let wire := Sensor.data (Sensor.esp_now_send Sensor.BCAST p (Sensor.wire_len p)) in
  let q := Hub.pkt (Hub.onRecv mac wire s) in
  0 <= Sensor.pkt_ver p < 2 ^ 8 ->
  1 <= Sensor.pkt_n p <= 32 ->
  length (Sensor.pkt_id p) = 3%nat ->
  0 <= Sensor.pkt_seq p < 2 ^ 16 ->
  0 <= Sensor.pkt_ms p < 2 ^ 32 ->
  (n <= length (Sensor.pkt_v p))%nat ->
  Forall (fun x => 0 <= x < 2 ^ 16) (take n (Sensor.pkt_v p)) ->
  length wire = (11 + 2 * n)%nat
  /\ p_ver q = Sensor.pkt_ver p
  /\ p_n q = Sensor.pkt_n p
  /\ [p_id q 0; p_id q 1; p_id q 2] = Sensor.pkt_id p
  /\ p_seq q = Sensor.pkt_seq p
  /\ p_ms q = Sensor.pkt_ms p
  /\ Hub.channels q = take n (Sensor.pkt_v p)
  /\ length (Hub.channels q) = n.
Proof.
  intros n wire q Hver Hn Hid Hseq Hms Hlen Hv.
  assert (Hwire : wire = take (11 + 2 * n) (Sensor.image p)).
  { subst wire. unfold Sensor.esp_now_send. cbn [Sensor.data].
    f_equal. rewrite wire_len_eq. lia. }
  assert (Hwl : length wire = (11 + 2 * n)%nat).
  { rewrite Hwire, length_take, image_length by exact Hid. lia. }
  destruct (mailbox_fields mac wire s ltac:(lia))
    as (Ever & En & Eid & Eseq & Ems & Ev). fold q in Ever, En, Eid, Eseq, Ems, Ev.
  destruct (prefix_fields (Sensor.image p) (11 + 2 * n) ltac:(lia))
    as (Fver & Fn & Fid & Fseq & Fms & Fv). rewrite <- Hwire in *.
  assert (Eqn : p_n q = Sensor.pkt_n p).
  { rewrite En, Fn, image_n. unfold u8. apply Z.mod_small. lia. }
  split; [exact Hwl|].
  split; [rewrite Ever, Fver, image_ver; unfold u8; apply Z.mod_small; lia|].
  split; [exact Eqn|].
  split.
  { rewrite !Eid, !Fid, !image_id by (assumption || lia).
    destruct (Sensor.pkt_id p) as [|a [|b [|c [|]]]]; try discriminate Hid.
    reflexivity. }
  split; [rewrite Eseq, Fseq, image_seq by exact Hid; unfold u16; apply Z.mod_small; lia|].
  split; [rewrite Ems, Fms, image_ms by exact Hid; unfold u32; apply Z.mod_small; lia|].
  assert (Hcnt : Z.to_nat (Z.min (p_n q) 32) = n) by (rewrite Eqn; lia).
  split; [|now rewrite channels_length].
  apply list_eq. intros i.
  destruct (decide (i < n)%nat) as [Hi|Hi].
  - rewrite channels_lookup by lia.
    rewrite lookup_take_lt by exact Hi.
    rewrite Ev by (unfold off_v; lia). rewrite Fv by (unfold off_v; lia).
    rewrite image_v by (assumption || lia).
    destruct (lookup_lt_is_Some_2 (Sensor.pkt_v p) i ltac:(lia)) as [x Hx].
    rewrite (list_lookup_total_correct _ _ _ Hx), Hx. f_equal.
    rewrite Forall_lookup in Hv.
    specialize (Hv i x). rewrite lookup_take_lt in Hv by exact Hi.
    unfold u16. apply Z.mod_small. now apply Hv.
  - rewrite lookup_take_ge by lia.
    apply lookup_ge_None. rewrite channels_length. lia.
Qed.

(** ** Counted loops *)

Lemma for_loop_snoc {A : Type} (body : nat -> A -> A) (cnt : nat) :
  forall (i : nat) (a : A),
    for_loop (S cnt) i body a = body (i + cnt)%nat (for_loop cnt i body a).
Proof.
  induction cnt as [|cnt IH]; intros i a.
  - simpl. now rewrite Nat.add_0_r.
  - change (for_loop (S (S cnt)) i body a) with (for_loop (S cnt) (S i) body (body i a)).
    rewrite IH. simpl. do 2 f_equal. lia.
Qed.

Lemma for_loop_preserve {A : Type} (P : A -> Prop) (body : nat -> A -> A) (cnt : nat) :
  (forall j a, P a -> P (body j a)) ->
  forall (i : nat) (a : A), P a -> P (for_loop cnt i body a).
Proof.
  intros Hbody. induction cnt as [|cnt IH]; intros i a Ha; [exact Ha|].
  simpl. apply IH. now apply Hbody.
Qed.

(** ** Sensor *)

Section SensorProps.

Variable TOUCH_PINS : list Z.
Variable TARGET_HZ : Z.
Variable lroundf_other : F32.float -> Z.

Local Abbreviation NUM_CH := (Sensor.NUM_CH TOUCH_PINS).
Local Abbreviation lroundf := (Sensor.lroundf lroundf_other).
Local Abbreviation setup := (Sensor.setup TOUCH_PINS).
Local Abbreviation loop := (Sensor.loop TOUCH_PINS TARGET_HZ lroundf_other).
Local Abbreviation run := (Sensor.run TOUCH_PINS TARGET_HZ lroundf_other).
Local Abbreviation pack_step := (Sensor.pack_step lroundf_other).
Local Abbreviation filtered := (Sensor.filtered TOUCH_PINS).
Local Abbreviation due := (Sensor.due TOUCH_PINS TARGET_HZ).

Lemma NUM_CH_le : (NUM_CH <= 32)%nat.
Proof. unfold Sensor.NUM_CH, MAX_CH. lia. Qed.

(** *** The read-and-filter loop *)

Lemma filter_loop_frame (rd : nat -> Z) (cnt i : nat) (s : Sensor.state) :
  let s' := for_loop cnt i (Sensor.filter_step rd) s in
  Sensor.pkt s' = Sensor.pkt s
  /\ Sensor.seq s' = Sensor.seq s
  /\ Sensor.lastSend s' = Sensor.lastSend s
  /\ Sensor.mac_sta s' = Sensor.mac_sta s
  /\ length (Sensor.filt s') = length (Sensor.filt s)
  /\ length (Sensor.baseline s') = length (Sensor.baseline s).
Proof.
  apply (for_loop_preserve
           (fun s' => Sensor.pkt s' = Sensor.pkt s
                      /\ Sensor.seq s' = Sensor.seq s
                      /\ Sensor.lastSend s' = Sensor.lastSend s
                      /\ Sensor.mac_sta s' = Sensor.mac_sta s
                      /\ length (Sensor.filt s') = length (Sensor.filt s)
                      /\ length (Sensor.baseline s') = length (Sensor.baseline s))).
  - intros j a (H1 & H2 & H3 & H4 & H5 & H6). cbn.
    rewrite !length_insert. tauto.
  - tauto.
Qed.

Lemma filter_loop_spec (rd : nat -> Z) (s : Sensor.state) (cnt : nat) :
  (cnt <= length (Sensor.filt s))%nat ->
  (cnt <= length (Sensor.baseline s))%nat ->
  let s' := for_loop cnt 0 (Sensor.filter_step rd) s in
  forall i : nat,
    ((i < cnt)%nat ->
     Sensor.filt s' !!! i = Sensor.lpf (Sensor.filt s !!! i) (s32 (rd i))
     /\ Sensor.baseline s' !!! i
        = Sensor.track (Sensor.baseline s !!! i) (Sensor.filt s' !!! i))
    /\ ((cnt <= i)%nat ->
        Sensor.filt s' !!! i = Sensor.filt s !!! i
        /\ Sensor.baseline s' !!! i = Sensor.baseline s !!! i).
Proof.
  induction cnt as [|cnt IH]; intros Hf Hb; cbv zeta.
  - intros i. split; [lia | now intros _].
  - rewrite for_loop_snoc. cbn [Nat.add].
    specialize (IH ltac:(lia) ltac:(lia)). cbv zeta in IH.
    pose proof (filter_loop_frame rd cnt 0 s) as (_ & _ & _ & _ & Lf & Lb).
    cbv zeta in Lf, Lb.
    set (sc := for_loop cnt 0 (Sensor.filter_step rd) s) in *.
    intros i. cbn [Sensor.filter_step Sensor.filt Sensor.baseline
                     Sensor.set_filt Sensor.set_baseline].
    destruct (IH cnt) as [_ Hat]. specialize (Hat ltac:(lia)) as [Hatf Hatb].
    destruct (decide (i = cnt)) as [->|Hne].
    + split; [intros _ | lia].
      rewrite !list_lookup_total_insert_eq by lia.
      rewrite Hatf, Hatb. split; reflexivity.
    + rewrite !list_lookup_total_insert_ne by congruence.
      destruct (IH i) as [Hlt Hge]. split; intros Hi.
      * apply Hlt. lia.
      * apply Hge. lia.
Qed.

(** *** The loop that fills [pkt.v] *)

Lemma pack_loop_frame (cnt i : nat) (s : Sensor.state) :
  let s' := for_loop cnt i pack_step s in
  Sensor.filt s' = Sensor.filt s
  /\ Sensor.baseline s' = Sensor.baseline s
  /\ Sensor.seq s' = Sensor.seq s
  /\ Sensor.lastSend s' = Sensor.lastSend s
  /\ Sensor.mac_sta s' = Sensor.mac_sta s
  /\ Sensor.pkt_ver (Sensor.pkt s') = Sensor.pkt_ver (Sensor.pkt s)
  /\ Sensor.pkt_n (Sensor.pkt s') = Sensor.pkt_n (Sensor.pkt s)
  /\ Sensor.pkt_id (Sensor.pkt s') = Sensor.pkt_id (Sensor.pkt s)
  /\ Sensor.pkt_seq (Sensor.pkt s') = Sensor.pkt_seq (Sensor.pkt s)
  /\ Sensor.pkt_ms (Sensor.pkt s') = Sensor.pkt_ms (Sensor.pkt s)
  /\ length (Sensor.pkt_v (Sensor.pkt s')) = length (Sensor.pkt_v (Sensor.pkt s)).
Proof.
  apply (for_loop_preserve
           (fun s' =>
              Sensor.filt s' = Sensor.filt s
              /\ Sensor.baseline s' = Sensor.baseline s
              /\ Sensor.seq s' = Sensor.seq s
              /\ Sensor.lastSend s' = Sensor.lastSend s
              /\ Sensor.mac_sta s' = Sensor.mac_sta s
              /\ Sensor.pkt_ver (Sensor.pkt s') = Sensor.pkt_ver (Sensor.pkt s)
              /\ Sensor.pkt_n (Sensor.pkt s') = Sensor.pkt_n (Sensor.pkt s)
              /\ Sensor.pkt_id (Sensor.pkt s') = Sensor.pkt_id (Sensor.pkt s)
              /\ Sensor.pkt_seq (Sensor.pkt s') = Sensor.pkt_seq (Sensor.pkt s)
              /\ Sensor.pkt_ms (Sensor.pkt s') = Sensor.pkt_ms (Sensor.pkt s)
              /\ length (Sensor.pkt_v (Sensor.pkt s'))
                 = length (Sensor.pkt_v (Sensor.pkt s)))).
  - intros j a H. cbn. rewrite length_insert. tauto.
  - repeat split.
Qed.

Lemma pack_loop_spec (s : Sensor.state) (cnt : nat) :
  (cnt <= length (Sensor.pkt_v (Sensor.pkt s)))%nat ->
  let s' := for_loop cnt 0 pack_step s in
  forall i : nat,
    ((i < cnt)%nat ->
     Sensor.pkt_v (Sensor.pkt s') !!! i
     = u16 (Sensor.clamp16 (s32 (lroundf (Sensor.filt s !!! i)))))
    /\ ((cnt <= i)%nat ->
        Sensor.pkt_v (Sensor.pkt s') !!! i = Sensor.pkt_v (Sensor.pkt s) !!! i).
Proof.
  induction cnt as [|cnt IH]; intros Hv; cbv zeta.
  - intros i. split; [lia | now intros _].
  - rewrite for_loop_snoc. cbn [Nat.add].
    specialize (IH ltac:(lia)). cbv zeta in IH.
    pose proof (pack_loop_frame cnt 0 s)
      as (Ef & _ & _ & _ & _ & _ & _ & _ & _ & _ & Lv).
    cbv zeta in Ef, Lv.
    set (sc := for_loop cnt 0 pack_step s) in *.
    intros i. cbn [Sensor.pack_step Sensor.pkt Sensor.set_pkt Sensor.pkt_v].
    destruct (decide (i = cnt)) as [->|Hne].
    + split; [intros _ | lia].
      rewrite list_lookup_total_insert_eq by lia. now rewrite Ef.
    + rewrite list_lookup_total_insert_ne by congruence.
      destruct (IH i) as [Hlt Hge]. split; intros Hi; [apply Hlt | apply Hge]; lia.
Qed.

(** *** One pass of [loop] *)

Lemma loop_idle (t : Sensor.tick) (s : Sensor.state) :
  due t s = false -> loop t s = (filtered t s, None).
Proof. unfold Sensor.due, Sensor.filtered, Sensor.loop. now intros ->. Qed.

Lemma loop_send (t : Sensor.tick) (s : Sensor.state) :
  due t s = true ->
  exists s',
    loop t s
    = (s', Some (Sensor.esp_now_send Sensor.BCAST (Sensor.pkt s')
                                     (Sensor.wire_len (Sensor.pkt s'))))
    /\ Sensor.filt s' = Sensor.filt (filtered t s)
    /\ Sensor.baseline s' = Sensor.baseline (filtered t s)
    /\ Sensor.seq s' = u16 (Sensor.seq s + 1)
    /\ Sensor.lastSend s' = u32 (Sensor.uptime t)
    /\ Sensor.pkt_ver (Sensor.pkt s') = Sensor.pkt_ver (Sensor.pkt s)
    /\ Sensor.pkt_n (Sensor.pkt s') = Sensor.pkt_n (Sensor.pkt s)
    /\ Sensor.pkt_id (Sensor.pkt s') = Sensor.pkt_id (Sensor.pkt s)
    /\ Sensor.pkt_seq (Sensor.pkt s') = Sensor.seq s
    /\ Sensor.pkt_ms (Sensor.pkt s') = u32 (Sensor.uptime t)
    /\ length (Sensor.pkt_v (Sensor.pkt s')) = length (Sensor.pkt_v (Sensor.pkt s))
    /\ ((NUM_CH <= length (Sensor.pkt_v (Sensor.pkt s)))%nat ->
        forall i : nat,
          (i < NUM_CH)%nat ->
          Sensor.pkt_v (Sensor.pkt s') !!! i
          = u16 (Sensor.clamp16 (s32 (lroundf (Sensor.filt s' !!! i))))).
Proof.
  intros Hdue. unfold Sensor.due in Hdue. unfold Sensor.loop. fold (filtered t s).
  rewrite Hdue.
  pose proof (filter_loop_frame (Sensor.touchRead t) NUM_CH 0 s)
    as (Ep & Es & El & Em & Lf & Lb). cbv zeta in Ep, Es, El, Em, Lf, Lb.
  fold (filtered t s) in Ep, Es, El, Em, Lf, Lb.
  match goal with
  | |- exists s', (for_loop _ _ _ ?x, _) = _ /\ _ => set (s4 := x)
  end.
  pose proof (pack_loop_frame NUM_CH 0 s4)
    as (P1 & P2 & P3 & P4 & P5 & P6 & P7 & P8 & P9 & P10 & P11).
  cbv zeta in P1, P2, P3, P4, P5, P6, P7, P8, P9, P10, P11.
  eexists. split; [reflexivity|].
  rewrite P1, P2, P3, P4, P6, P7, P8, P9, P10, P11.
  subst s4.
  cbn [Sensor.pkt Sensor.set_seq Sensor.set_pkt Sensor.set_lastSend Sensor.pkt_v
       Sensor.pkt_ver Sensor.pkt_n Sensor.pkt_id Sensor.pkt_seq Sensor.pkt_ms
       Sensor.seq Sensor.filt Sensor.baseline Sensor.lastSend].
  rewrite Ep, Es.
  repeat (split; [reflexivity|]).
  intros Hv i Hi.
  match goal with
  | |- Sensor.pkt_v (Sensor.pkt (for_loop _ _ _ ?x)) !!! _ = _ => set (s4 := x)
  end.
  assert (Hv4 : (NUM_CH <= length (Sensor.pkt_v (Sensor.pkt s4)))%nat).
  { subst s4.
    cbn [Sensor.pkt Sensor.set_seq Sensor.set_pkt Sensor.set_lastSend Sensor.pkt_v].
    exact Hv. }
  destruct (pack_loop_spec s4 NUM_CH Hv4 i) as [Hlt _].
  rewrite (Hlt Hi). reflexivity.
Qed.

(** *** What [setup] establishes and [loop] keeps *)

Lemma calibrate_frame (rd : nat -> nat -> Z) (cnt i : nat) (s : Sensor.state) :
  let s' := for_loop cnt i (Sensor.calibrate rd) s in
  Sensor.pkt s' = Sensor.pkt s
  /\ Sensor.seq s' = Sensor.seq s
  /\ length (Sensor.filt s') = length (Sensor.filt s)
  /\ length (Sensor.baseline s') = length (Sensor.baseline s).
Proof.
  apply (for_loop_preserve
           (fun s' => Sensor.pkt s' = Sensor.pkt s
                      /\ Sensor.seq s' = Sensor.seq s
                      /\ length (Sensor.filt s') = length (Sensor.filt s)
                      /\ length (Sensor.baseline s') = length (Sensor.baseline s))).
  - intros j a (H1 & H2 & H3 & H4). cbn. rewrite !length_insert. tauto.
  - tauto.
Qed.

Lemma setup_inv (mac : list byte) (rd : nat -> nat -> Z) :
  Sensor.inv TOUCH_PINS (setup mac rd Sensor.boot).
Proof.
  unfold Sensor.setup, Sensor.inv.
  match goal with |- context [for_loop _ _ _ ?x] => set (s1 := x) end.
  pose proof (calibrate_frame rd NUM_CH 0 s1) as (Ep & Es & Lf & Lb).
  cbv zeta in Ep, Es, Lf, Lb. rewrite Ep, Es, Lf, Lb. subst s1. cbn.
  pose proof NUM_CH_le. unfold u8. rewrite Z.mod_small by lia.
  repeat split; lia.
Qed.

Lemma loop_inv (t : Sensor.tick) (s : Sensor.state) :
  Sensor.inv TOUCH_PINS s -> Sensor.inv TOUCH_PINS (fst (loop t s)).
Proof.
  intros (Hn & Hid & Hv & Hf & Hb & Hs).
  pose proof (filter_loop_frame (Sensor.touchRead t) NUM_CH 0 s)
    as (Ep & Es & El & Em & Lf & Lb). cbv zeta in Ep, Es, El, Em, Lf, Lb.
  fold (filtered t s) in Ep, Es, El, Em, Lf, Lb.
  destruct (due t s) eqn:Hdue.
  - destruct (loop_send t s Hdue)
      as (s' & -> & Ef & Eb & Eseq & _ & _ & En & Eid & _ & _ & Lv & _).
    cbn [fst]. unfold Sensor.inv.
    rewrite En, Eid, Lv, Ef, Eb, Eseq, Lf, Lb.
    repeat split; try assumption; unfold u16; apply Z.mod_pos_bound; lia.
  - rewrite loop_idle by exact Hdue. cbn [fst]. unfold Sensor.inv.
    rewrite Ep, Es, Lf, Lb. repeat split; assumption || apply Hs.
Qed.

Lemma run_inv (ts : list Sensor.tick) :
  forall s, Sensor.inv TOUCH_PINS s -> Sensor.inv TOUCH_PINS (fst (run ts s)).
Proof.
  induction ts as [|t ts IH]; intros s Hs; [exact Hs|].
  simpl. pose proof (loop_inv t s Hs) as H1.
  destruct (loop t s) as [s1 o]. cbn [fst] in H1.
  specialize (IH s1 H1). destruct (run ts s1) as [s2 os]. exact IH.
Qed.

Lemma reachable_inv (s : Sensor.state) :
  Sensor.reachable TOUCH_PINS TARGET_HZ lroundf_other s -> Sensor.inv TOUCH_PINS s.
Proof. intros (mac & rd & ts & ->). apply run_inv, setup_inv. Qed.

(** *** What a send puts on the wire *)

Lemma sent_fields (p : Sensor.TouchPacket) :
  length (Sensor.pkt_id p) = 3%nat ->
  length (Sensor.pkt_v p) = MAX_CH ->
  0 <= Sensor.pkt_n p <= 32 ->
  let c := Sensor.esp_now_send Sensor.BCAST p (Sensor.wire_len p) in
  Sensor.len c = 11 + 2 * Sensor.pkt_n p
  /\ length (Sensor.data c) = Z.to_nat (Sensor.len c)
  /\ p_n (Sensor.data c) = Sensor.pkt_n p
  /\ p_seq (Sensor.data c) = u16 (Sensor.pkt_seq p)
  /\ p_ms (Sensor.data c) = u32 (Sensor.pkt_ms p)
  /\ forall i : nat,
      Z.of_nat i < Sensor.pkt_n p ->
      p_v (Sensor.data c) i = u16 (Sensor.pkt_v p !!! i).
Proof.
  intros Hid Hv Hn c.
  assert (Hlen : Sensor.len c = 11 + 2 * Sensor.pkt_n p).
  { subst c. cbn [Sensor.esp_now_send Sensor.len]. apply wire_len_eq. }
  assert (Hdata : Sensor.data c = take (Z.to_nat (Sensor.len c)) (Sensor.image p))
    by reflexivity.
  unfold MAX_CH in Hv.
  destruct (prefix_fields (Sensor.image p) (Z.to_nat (Sensor.len c)) ltac:(lia))
    as (_ & Fn & _ & Fseq & Fms & Fv).
  rewrite Hdata, Fn, Fseq, Fms, image_n, image_seq, image_ms by exact Hid.
  split; [exact Hlen|].
  split; [rewrite length_take, image_length by exact Hid; lia|].
  split; [unfold u8; apply Z.mod_small; lia|].
  split; [reflexivity|]. split; [reflexivity|].
  intros i Hi. rewrite Fv by (unfold off_v; lia).
  apply image_v; [exact Hid | lia].
Qed.

Lemma loop_filt (t : Sensor.tick) (s : Sensor.state) :
  Sensor.filt (fst (loop t s)) = Sensor.filt (filtered t s)
  /\ Sensor.baseline (fst (loop t s)) = Sensor.baseline (filtered t s).
Proof.
  destruct (due t s) eqn:Hdue.
  - destruct (loop_send t s Hdue) as (s' & -> & Ef & Eb & _). now split.
  - rewrite loop_idle by exact Hdue. now split.
Qed.

Lemma clamp16_max_min (v : Z) : Sensor.clamp16 v = Z.max 0 (Z.min v 65535).
Proof.
  unfold Sensor.clamp16.
  destruct (Z.ltb_spec v 0) as [Hneg|Hpos]; [cbn; lia|].
  destruct (Z.ltb_spec 65535 v); lia.
Qed.

(** What a pass that sends does to the counter and what it transmits. *)
Lemma loop_sends (t : Sensor.tick) (s s' : Sensor.state) (c : Sensor.send_call) :
  Sensor.inv TOUCH_PINS s ->
  loop t s = (s', Some c) ->
  c = Sensor.esp_now_send Sensor.BCAST (Sensor.pkt s') (Sensor.wire_len (Sensor.pkt s'))
  /\ Sensor.seq s' = u16 (Sensor.seq s + 1)
  /\ Sensor.len c = 11 + 2 * Z.of_nat NUM_CH
  /\ length (Sensor.data c) = Z.to_nat (Sensor.len c)
  /\ p_n (Sensor.data c) = Z.of_nat NUM_CH
  /\ p_seq (Sensor.data c) = Sensor.seq s
  /\ p_ms (Sensor.data c) = u32 (Sensor.uptime t)
  /\ forall i : nat,
      (i < NUM_CH)%nat ->
      p_v (Sensor.data c) i
      = Sensor.clamp16 (s32 (lroundf (Sensor.filt s' !!! i))).
Proof.
  intros (Hn & Hid & Hv & Hf & Hb & Hs) Hloop.
  destruct (due t s) eqn:Hdue;
    [|rewrite loop_idle in Hloop by exact Hdue; discriminate Hloop].
  destruct (loop_send t s Hdue)
    as (s1 & E & _ & _ & Eseq & _ & _ & En & Eid & Epseq & Epms & Lv & Evs).
  rewrite E in Hloop. injection Hloop as -> <-.
  pose proof NUM_CH_le as Hle.
  destruct (sent_fields (Sensor.pkt s'))
    as (Hlen & Hdl & Hpn & Hpseq & Hpms & Hpv);
    [now rewrite Eid | now rewrite Lv | rewrite En, Hn; lia|].
  cbv zeta in Hlen, Hdl, Hpn, Hpseq, Hpms, Hpv.
  split; [reflexivity|]. split; [exact Eseq|].
  split; [rewrite Hlen, En, Hn; reflexivity|].
  split; [exact Hdl|].
  split; [rewrite Hpn, En, Hn; reflexivity|].
  split; [rewrite Hpseq, Epseq; unfold u16; apply Z.mod_small; exact Hs|].
  split; [rewrite Hpms, Epms; unfold u32; apply Z.mod_mod; lia|].
  intros i Hi. rewrite Hpv by (rewrite En, Hn; lia).
  rewrite (Evs ltac:(rewrite Hv; unfold MAX_CH; lia) i Hi).
  unfold u16. rewrite Z.mod_mod by lia. apply Z.mod_small.
  rewrite clamp16_max_min. lia.
Qed.

(** C7: in one pass of [loop], for every channel below NUM_CH, the new
    filtered value is (1 - 0.2) * old filtered + 0.2 * raw, and the new
    baseline is (1 - 0.0015) * old baseline + 0.0015 * new filtered value,
    so the baseline follows the value just filtered and not the raw sample.
    The arithmetic is the sketch's own: binary32 operations on the binary32
    constants 0.2f and 0.0015f, the raw sample converted from int. *)
Theorem filter_update (s : Sensor.state) (t : Sensor.tick) (i : nat) :
  Sensor.reachable TOUCH_PINS TARGET_HZ lroundf_other s ->
  (i < NUM_CH)%nat ->
  let raw := s32 (Sensor.touchRead t i) in
  let s' := fst (loop t s) in
  Sensor.filt s' !!! i
  = F32.add (F32.mul (F32.sub Sensor.one Sensor.LPF_ALPHA) (Sensor.filt s !!! i))
            (F32.mul Sensor.LPF_ALPHA (F32.of_int raw))
  /\ Sensor.baseline s' !!! i
     = F32.add (F32.mul (F32.sub Sensor.one Sensor.BASELINE_ADAPT)
                        (Sensor.baseline s !!! i))
               (F32.mul Sensor.BASELINE_ADAPT (Sensor.filt s' !!! i)).
Proof.
  intros Hs Hi raw s'. apply reachable_inv in Hs as (_ & _ & _ & Hf & Hb & _).
  subst s'. destruct (loop_filt t s) as [-> ->].
  pose proof NUM_CH_le as Hle. unfold MAX_CH in Hf, Hb.
  destruct (filter_loop_spec (Sensor.touchRead t) s NUM_CH
              ltac:(lia) ltac:(lia) i) as [Hlt _].
  exact (Hlt Hi).
Qed.

(** C2: every send passes exactly 11 + 2n bytes to the radio, n being the
    channel count in the datagram's n field, which is NUM_CH; with fewer
    than 32 channels that is less than the 75 bytes of the struct. *)
Theorem send_length (s s' : Sensor.state) (t : Sensor.tick) (c : Sensor.send_call) :
  Sensor.reachable TOUCH_PINS TARGET_HZ lroundf_other s ->
  loop t s = (s', Some c) ->
  Sensor.len c = 11 + 2 * p_n (Sensor.data c)
  /\ p_n (Sensor.data c) = Z.of_nat NUM_CH
  /\ Z.of_nat (length (Sensor.data c)) = Sensor.len c
  /\ Sensor.peer_addr c = Sensor.BCAST
  /\ (p_n (Sensor.data c) < 32 -> Sensor.len c < sizeof_TouchPacket).
Proof.
  intros Hs Hloop. apply reachable_inv in Hs.
  destruct (loop_sends t s s' c Hs Hloop) as (Ec & _ & Hlen & Hdl & Hn & _).
  split; [rewrite Hlen, Hn; reflexivity|].
  split; [exact Hn|]. split; [rewrite Hdl, Hlen; lia|].
  split; [now rewrite Ec|].
  rewrite Hlen, Hn. change sizeof_TouchPacket with 75. lia.
Qed.

(** C4: in every datagram sent, each channel value v[i], i < n, lies in
    [0, 65535] and is [lroundf(filt[i])] clamped into [0, 65535]; wherever
    the rounded value fits a [long], that is filt[i] rounded to the nearest
    integer (halves away from zero) and then clamped. *)
Theorem wire_values_rounded_clamped
    (s s' : Sensor.state) (t : Sensor.tick) (c : Sensor.send_call) (i : nat) :
  Sensor.reachable TOUCH_PINS TARGET_HZ lroundf_other s ->
  loop t s = (s', Some c) ->
  (i < NUM_CH)%nat ->
  let x := Sensor.filt s' !!! i in
  0 <= p_v (Sensor.data c) i <= 65535
  /\ p_v (Sensor.data c) i = Sensor.clamp16 (s32 (lroundf x))
  /\ forall z : Z,
      F32.round_half_away x = Some z ->
      - 2 ^ 31 <= z < 2 ^ 31 ->
      p_v (Sensor.data c) i = Z.max 0 (Z.min z 65535).
Proof.
  intros Hs Hloop Hi x. apply reachable_inv in Hs.
  destruct (loop_sends t s s' c Hs Hloop) as (_ & _ & _ & _ & _ & _ & _ & Hv).
  rewrite (Hv i Hi). fold x.
  pose proof clamp16_max_min as Hclamp.
  split; [rewrite Hclamp; lia|]. split; [reflexivity|].
  intros z Hz Hrange. rewrite Hclamp. do 2 f_equal.
  unfold Sensor.lroundf. rewrite Hz.
  destruct (Z.leb_spec (- 2 ^ 31) z); [|lia].
  destruct (Z.ltb_spec z (2 ^ 31)); [|lia]. cbn [andb].
  unfold s32. change (2 ^ 31) with 2147483648 in *. change (2 ^ 32) with 4294967296.
  rewrite Z.mod_small; lia.
Qed.

(** *** Runs *)

Lemma state_at_cons (t : Sensor.tick) (ts : list Sensor.tick) (s : Sensor.state) (j : nat) :
  Sensor.state_at TOUCH_PINS TARGET_HZ lroundf_other (t :: ts) s (S j)
  = Sensor.state_at TOUCH_PINS TARGET_HZ lroundf_other ts (fst (loop t s)) j.
Proof.
  unfold Sensor.state_at. cbn [take Sensor.run].
  destruct (loop t s) as [s1 o]. cbn [fst]. now destruct (run (take j ts) s1).
Qed.

Lemma run_step (ts : list Sensor.tick) :
  forall (s : Sensor.state) (j : nat) (t : Sensor.tick),
    ts !! j = Some t ->
    let x := Sensor.state_at TOUCH_PINS TARGET_HZ lroundf_other ts s j in
    snd (run ts s) !! j = Some (snd (loop t x))
    /\ Sensor.state_at TOUCH_PINS TARGET_HZ lroundf_other ts s (S j) = fst (loop t x).
Proof.
  induction ts as [|t0 ts IH]; intros s j t Hj; [discriminate Hj|].
  destruct j as [|j].
  - injection Hj as ->. cbv zeta. unfold Sensor.state_at.
    cbn [take Sensor.run fst]. destruct (loop t s) as [s1 o].
    destruct (run ts s1) as [s2 os]. now split.
  - cbv zeta. rewrite !state_at_cons.
    destruct (IH (fst (loop t0 s)) j t Hj) as [H1 H2].
    split; [|exact H2]. rewrite <- H1. cbn [Sensor.run].
    destruct (loop t0 s) as [s1 o]. cbn [fst].
    now destruct (run ts s1) as [s2 os].
Qed.

Lemma state_at_inv (ts : list Sensor.tick) (s : Sensor.state) (j : nat) :
  Sensor.inv TOUCH_PINS s ->
  Sensor.inv TOUCH_PINS (Sensor.state_at TOUCH_PINS TARGET_HZ lroundf_other ts s j).
Proof. apply run_inv. Qed.

Lemma loop_none_seq (t : Sensor.tick) (s : Sensor.state) :
  snd (loop t s) = None -> Sensor.seq (fst (loop t s)) = Sensor.seq s.
Proof.
  intros Hn. destruct (due t s) eqn:Hdue.
  - destruct (loop_send t s Hdue) as (s' & E & _). rewrite E in Hn. discriminate Hn.
  - rewrite loop_idle by exact Hdue. cbn [fst].
    now pose proof (filter_loop_frame (Sensor.touchRead t) NUM_CH 0 s) as (_ & Es & _).
Qed.

(** Over passes that send nothing the counter stands still. *)
Lemma idle_span (ts : list Sensor.tick) (s : Sensor.state) (j : nat) (d : nat) :
  (j + d <= length ts)%nat ->
  (forall i, (j <= i < j + d)%nat -> snd (run ts s) !! i = Some None) ->
  Sensor.seq (Sensor.state_at TOUCH_PINS TARGET_HZ lroundf_other ts s (j + d))
  = Sensor.seq (Sensor.state_at TOUCH_PINS TARGET_HZ lroundf_other ts s j).
Proof.
  induction d as [|d IH]; intros Hlen Hidle; [now rewrite Nat.add_0_r|].
  rewrite <- IH by (try lia; intros i Hi; apply Hidle; lia).
  destruct (lookup_lt_is_Some_2 ts (j + d) ltac:(lia)) as [t Ht].
  destruct (run_step ts s (j + d) t Ht) as [Hout Hnext]. cbv zeta in Hout, Hnext.
  replace (j + S d)%nat with (S (j + d)) by lia. rewrite Hnext.
  apply loop_none_seq. rewrite Hidle in Hout by lia. now injection Hout as <-.
Qed.

(** C5: of two datagrams sent one after the other by a sensor, the second
    carries the first one's seq plus 1 modulo 2^16 (so 65535 is followed
    by 0, and the difference modulo 2^16 is 1); each carries as ms the
    uptime of its pass modulo 2^32, so when the clock has not gone back ms
    has advanced, modulo 2^32, by the non-negative time elapsed. *)
Theorem consecutive_datagrams
    (ts : list Sensor.tick) (s : Sensor.state) (j k : nat)
    (ta tb : Sensor.tick) (a b : Sensor.send_call) :
  Sensor.reachable TOUCH_PINS TARGET_HZ lroundf_other s ->
  (j < k)%nat ->
  ts !! j = Some ta ->
  ts !! k = Some tb ->
  snd (run ts s) !! j = Some (Some a) ->
  snd (run ts s) !! k = Some (Some b) ->
  (forall i, (j < i < k)%nat -> snd (run ts s) !! i = Some None) ->
  p_seq (Sensor.data b) = u16 (p_seq (Sensor.data a) + 1)
  /\ u16 (p_seq (Sensor.data b) - p_seq (Sensor.data a)) = 1
  /\ (p_seq (Sensor.data a) = 65535 -> p_seq (Sensor.data b) = 0)
  /\ p_ms (Sensor.data a) = u32 (Sensor.uptime ta)
  /\ p_ms (Sensor.data b) = u32 (Sensor.uptime tb)
  /\ (Sensor.uptime ta <= Sensor.uptime tb ->
      let elapsed := Sensor.uptime tb - Sensor.uptime ta in
      0 <= elapsed
      /\ p_ms (Sensor.data b) = u32 (p_ms (Sensor.data a) + elapsed)
      /\ (elapsed < 2 ^ 32 ->
          u32 (p_ms (Sensor.data b) - p_ms (Sensor.data a)) = elapsed)).
Proof.
  intros Hs Hjk Hta Htb Ha Hb Hidle. apply reachable_inv in Hs.
  destruct (run_step ts s j ta Hta) as [Houta Hnexta].
  destruct (run_step ts s k tb Htb) as [Houtb _]. cbv zeta in Houta, Hnexta, Houtb.
  set (xa := Sensor.state_at TOUCH_PINS TARGET_HZ lroundf_other ts s j) in *.
  set (xb := Sensor.state_at TOUCH_PINS TARGET_HZ lroundf_other ts s k) in *.
  rewrite Ha in Houta. rewrite Hb in Houtb.
  injection Houta as Houta. injection Houtb as Houtb.
  assert (Hla : loop ta xa = (fst (loop ta xa), Some a))
    by (rewrite Houta; apply surjective_pairing).
  assert (Hlb : loop tb xb = (fst (loop tb xb), Some b))
    by (rewrite Houtb; apply surjective_pairing).
  pose proof (state_at_inv ts s j Hs) as Hia. fold xa in Hia.
  pose proof (state_at_inv ts s k Hs) as Hib. fold xb in Hib.
  destruct (loop_sends ta xa _ a Hia Hla)
    as (_ & Eseqa & _ & _ & _ & Epa & Ema & _).
  destruct (loop_sends tb xb _ b Hib Hlb)
    as (_ & _ & _ & _ & _ & Epb & Emb & _).
  assert (Hxb : Sensor.seq xb = u16 (Sensor.seq xa + 1)).
  { rewrite <- Eseqa, <- Hnexta. subst xb.
    replace k with (S j + (k - S j))%nat by lia.
    apply idle_span.
    - apply lookup_lt_Some in Htb. lia.
    - intros i Hi. apply Hidle. lia. }
  destruct Hia as (_ & _ & _ & _ & _ & Hra).
  rewrite Epa, Epb, Hxb, Ema, Emb.
  unfold u16, u32 in *. change (2 ^ 16) with 65536 in *.
  change (2 ^ 32) with 4294967296 in *.
  repeat split; intros; try subst elapsed; Z.div_mod_to_equations; lia.
Qed.

End SensorProps.

(** C10: for every TARGET_HZ above 1000 the integer division 1000 /
    TARGET_HZ gives a period of 0, so the sensor sends on every pass of
    [loop] and behaves, pass for pass, exactly as with TARGET_HZ = 0. *)
Theorem period_zero_above_1000
    (TOUCH_PINS : list Z) (lroundf_other : F32.float -> Z) (TARGET_HZ : Z) :
  1000 < TARGET_HZ ->
  Sensor.periodMs TARGET_HZ = 0
  /\ Sensor.periodMs 0 = 0
  /\ (forall t s, exists c,
        snd (Sensor.loop TOUCH_PINS TARGET_HZ lroundf_other t s) = Some c)
  /\ (forall t s,
        Sensor.loop TOUCH_PINS TARGET_HZ lroundf_other t s
        = Sensor.loop TOUCH_PINS 0 lroundf_other t s)
  /\ (forall ts s,
        Sensor.run TOUCH_PINS TARGET_HZ lroundf_other ts s
        = Sensor.run TOUCH_PINS 0 lroundf_other ts s).
Proof.
  intros Hhz.
  assert (Hp : Sensor.periodMs TARGET_HZ = 0).
  { unfold Sensor.periodMs. destruct (Z.ltb_spec 0 TARGET_HZ); [|reflexivity].
    apply Z.div_small. lia. }
  assert (Hl : forall t s,
             Sensor.loop TOUCH_PINS TARGET_HZ lroundf_other t s
             = Sensor.loop TOUCH_PINS 0 lroundf_other t s).
  { intros t s. unfold Sensor.loop. rewrite Hp. reflexivity. }
  split; [exact Hp|]. split; [reflexivity|].
  split; [|split; [exact Hl|]].
  - intros t s. unfold Sensor.loop. rewrite Hp. cbn [Z.eqb orb snd]. eauto.
  - induction ts as [|t ts IH]; intros s; [reflexivity|].
    cbn [Sensor.run]. rewrite Hl.
    destruct (Sensor.loop TOUCH_PINS 0 lroundf_other t s) as [s1 o].
    now rewrite IH.
Qed.

(** ** The constants and the rounding *)

(** [0.2f] and [0.0015f] are the correctly rounded quotients 2/10 and
    15/10000, and [1.0f - 0.2f] is the binary32 nearest to 0.8. *)
Example LPF_ALPHA_literal :
  Sensor.LPF_ALPHA = F32.div (F32.of_int 2) (F32.of_int 10).
Proof. reflexivity. Qed.

Example BASELINE_ADAPT_literal :
  Sensor.BASELINE_ADAPT = F32.div (F32.of_int 15) (F32.of_int 10000).
Proof. reflexivity. Qed.

Example one_minus_alpha :
  F32.sub Sensor.one Sensor.LPF_ALPHA = S754_finite false 13421773 (-24).
Proof. reflexivity. Qed.

(** [round_half_away] returns the integer nearest to the value of a finite
    float, the magnitude of a half rounding up. *)
Lemma round_half_away_nearest (sg : bool) (m : positive) (e z : Z) :
  F32.round_half_away (S754_finite sg m e) = Some z ->
  (if sg then z <= 0 else 0 <= z)
  /\ (0 <= e -> Z.abs z = Z.pos m * 2 ^ e)
  /\ (e < 0 ->
      2 * Z.pos m - 2 ^ (- e) < 2 * (Z.abs z * 2 ^ (- e)) <= 2 * Z.pos m + 2 ^ (- e)).
Proof.
  unfold F32.round_half_away. intros Hz. injection Hz as <-.
  destruct (Z.leb_spec 0 e) as [He|He].
  - assert (Hp : 0 < 2 ^ e) by (apply Z.pow_pos_nonneg; lia).
    assert (Hm : 0 < Z.pos m * 2 ^ e) by lia.
    destruct sg; (split; [lia|]); (split; [intros _; lia | lia]).
  - set (P := 2 ^ (- e)).
    assert (HP : 0 < P) by (apply Z.pow_pos_nonneg; lia).
    assert (HD : 2 ^ (1 - e) = 2 * P).
    { replace (1 - e) with (Z.succ (- e)) by lia. apply Z.pow_succ_r. lia. }
    rewrite HD.
    pose proof (Z.div_mod (2 * Z.pos m + P) (2 * P) ltac:(lia)) as Hdm.
    pose proof (Z.mod_pos_bound (2 * Z.pos m + P) (2 * P) ltac:(lia)) as Hr.
    set (q := (2 * Z.pos m + P) / (2 * P)) in *.
    assert (Hq : 0 <= q) by (apply Z.div_pos; lia).
    destruct sg; (split; [lia|]); (split; [lia|]); intros _;
      rewrite ?Z.abs_opp, Z.abs_eq by lia; nia.
Qed.

(** ** The theorems at concrete inputs *)

Lemma sensor_4ch_reachable :
  Sensor.reachable pins_4ch 250 lroundf_zero sensor_4ch.
Proof. exists mac_A1, (fun _ _ => 5000), []. reflexivity. Qed.

Lemma filter_update_4ch :
  let t := Sensor.Tick 123456 reads_5000 in
  let s := sensor_4ch in
  let raw := s32 (Sensor.touchRead t 0) in
  let s' := fst (Sensor.loop pins_4ch 250 lroundf_zero t s) in
  (Sensor.reachable pins_4ch 250 lroundf_zero s /\ (0 < Sensor.NUM_CH pins_4ch)%nat)
  /\ Sensor.filt s' !!! 0%nat
     = F32.add (F32.mul (F32.sub Sensor.one Sensor.LPF_ALPHA) (Sensor.filt s !!! 0%nat))
               (F32.mul Sensor.LPF_ALPHA (F32.of_int raw))
  /\ Sensor.baseline s' !!! 0%nat
     = F32.add (F32.mul (F32.sub Sensor.one Sensor.BASELINE_ADAPT)
                        (Sensor.baseline s !!! 0%nat))
               (F32.mul Sensor.BASELINE_ADAPT (Sensor.filt s' !!! 0%nat)).
Proof.
  cbv zeta. split.
  - split; [apply sensor_4ch_reachable | vm_compute; lia].
  - apply (filter_update pins_4ch 250 lroundf_zero sensor_4ch
             (Sensor.Tick 123456 reads_5000) 0%nat).
    + apply sensor_4ch_reachable.
    + vm_compute. lia.
Defined.

Lemma send_length_4ch :
  let t := Sensor.Tick 123456 reads_5000 in
  let r := Sensor.loop pins_4ch 250 lroundf_zero t sensor_4ch in
  let c := sent (Some (snd r)) in
  (Sensor.reachable pins_4ch 250 lroundf_zero sensor_4ch /\ r = (fst r, Some c))
  /\ Sensor.len c = 11 + 2 * p_n (Sensor.data c)
  /\ p_n (Sensor.data c) = Z.of_nat (Sensor.NUM_CH pins_4ch)
  /\ Z.of_nat (length (Sensor.data c)) = Sensor.len c
  /\ Sensor.peer_addr c = Sensor.BCAST
  /\ (p_n (Sensor.data c) < 32 -> Sensor.len c < sizeof_TouchPacket).
Proof.
  cbv zeta. split.
  - split; [apply sensor_4ch_reachable | vm_compute; reflexivity].
  - apply (send_length pins_4ch 250 lroundf_zero sensor_4ch
             (fst (Sensor.loop pins_4ch 250 lroundf_zero
                     (Sensor.Tick 123456 reads_5000) sensor_4ch))
             (Sensor.Tick 123456 reads_5000)).
    + apply sensor_4ch_reachable.
    + vm_compute. reflexivity.
Defined.

Lemma wire_values_4ch :
  let t := Sensor.Tick 123456 reads_5000 in
  let r := Sensor.loop pins_4ch 250 lroundf_zero t sensor_4ch in
  let c := sent (Some (snd r)) in
  let x := Sensor.filt (fst r) !!! 0%nat in
  (Sensor.reachable pins_4ch 250 lroundf_zero sensor_4ch
   /\ r = (fst r, Some c) /\ (0 < Sensor.NUM_CH pins_4ch)%nat)
  /\ 0 <= p_v (Sensor.data c) 0 <= 65535
  /\ p_v (Sensor.data c) 0 = Sensor.clamp16 (s32 (Sensor.lroundf lroundf_zero x))
  /\ forall z : Z,
      F32.round_half_away x = Some z ->
      - 2 ^ 31 <= z < 2 ^ 31 ->
      p_v (Sensor.data c) 0 = Z.max 0 (Z.min z 65535).
Proof.
  cbv zeta. split.
  - split; [apply sensor_4ch_reachable|].
    split; [vm_compute; reflexivity | vm_compute; lia].
  - apply (wire_values_rounded_clamped pins_4ch 250 lroundf_zero sensor_4ch
             (fst (Sensor.loop pins_4ch 250 lroundf_zero
                     (Sensor.Tick 123456 reads_5000) sensor_4ch))
             (Sensor.Tick 123456 reads_5000)).
    + apply sensor_4ch_reachable.
    + vm_compute. reflexivity.
    + vm_compute. lia.
Defined.

(** The value on the wire in that pass. *)
Example wire_value_5000 :
  p_v (Sensor.data (sent (Some (snd (Sensor.loop pins_4ch 250 lroundf_zero
                                       (Sensor.Tick 123456 reads_5000) sensor_4ch))))) 0
  = 5000.
Proof. vm_compute. reflexivity. Qed.

Lemma consecutive_datagrams_10_14 :
  let out := snd (Sensor.run pins_4ch 250 lroundf_zero ticks_10_12_14 sensor_4ch) in
  let ta := Sensor.Tick 10 reads_5000 in
  let tb := Sensor.Tick 14 reads_5000 in
  let a := sent (out !! 0%nat) in
  let b := sent (out !! 2%nat) in
  (Sensor.reachable pins_4ch 250 lroundf_zero sensor_4ch
   /\ (0 < 2)%nat
   /\ ticks_10_12_14 !! 0%nat = Some ta
   /\ ticks_10_12_14 !! 2%nat = Some tb
   /\ out !! 0%nat = Some (Some a)
   /\ out !! 2%nat = Some (Some b)
   /\ (forall i, (0 < i < 2)%nat -> out !! i = Some None))
  /\ p_seq (Sensor.data b) = u16 (p_seq (Sensor.data a) + 1)
  /\ u16 (p_seq (Sensor.data b) - p_seq (Sensor.data a)) = 1
  /\ (p_seq (Sensor.data a) = 65535 -> p_seq (Sensor.data b) = 0)
  /\ p_ms (Sensor.data a) = u32 (Sensor.uptime ta)
  /\ p_ms (Sensor.data b) = u32 (Sensor.uptime tb)
  /\ (Sensor.uptime ta <= Sensor.uptime tb ->
      let elapsed := Sensor.uptime tb - Sensor.uptime ta in
      0 <= elapsed
      /\ p_ms (Sensor.data b) = u32 (p_ms (Sensor.data a) + elapsed)
      /\ (elapsed < 2 ^ 32 ->
          u32 (p_ms (Sensor.data b) - p_ms (Sensor.data a)) = elapsed)).
Proof.
  assert (Hidle : forall i, (0 < i < 2)%nat ->
            snd (Sensor.run pins_4ch 250 lroundf_zero ticks_10_12_14 sensor_4ch) !! i
            = Some None).
  { intros i Hi. assert (i = 1%nat) as -> by lia. vm_compute. reflexivity. }
  cbv zeta. split.
  - split; [apply sensor_4ch_reachable|]. split; [lia|].
    split; [reflexivity|]. split; [reflexivity|].
    split; [vm_compute; reflexivity|]. split; [vm_compute; reflexivity | exact Hidle].
  - apply (consecutive_datagrams pins_4ch 250 lroundf_zero ticks_10_12_14 sensor_4ch
             0%nat 2%nat).
    + apply sensor_4ch_reachable.
    + lia.
    + reflexivity.
    + reflexivity.
    + vm_compute. reflexivity.
    + vm_compute. reflexivity.
    + exact Hidle.
Defined.

Lemma datagram_round_trip_4ch :
  let p := packet_4ch in
  let n := Z.to_nat (Sensor.pkt_n p) in
  let wire := Sensor.data (Sensor.esp_now_send Sensor.BCAST p (Sensor.wire_len p)) in
  let q := Hub.pkt (Hub.onRecv mac_A1 wire Hub.boot) in
  (0 <= Sensor.pkt_ver p < 2 ^ 8
   /\ 1 <= Sensor.pkt_n p <= 32
   /\ length (Sensor.pkt_id p) = 3%nat
   /\ 0 <= Sensor.pkt_seq p < 2 ^ 16
   /\ 0 <= Sensor.pkt_ms p < 2 ^ 32
   /\ (n <= length (Sensor.pkt_v p))%nat
   /\ Forall (fun x => 0 <= x < 2 ^ 16) (take n (Sensor.pkt_v p)))
  /\ length wire = (11 + 2 * n)%nat
  /\ p_ver q = Sensor.pkt_ver p
  /\ p_n q = Sensor.pkt_n p
  /\ [p_id q 0; p_id q 1; p_id q 2] = Sensor.pkt_id p
  /\ p_seq q = Sensor.pkt_seq p
  /\ p_ms q = Sensor.pkt_ms p
  /\ Hub.channels q = take n (Sensor.pkt_v p)
  /\ length (Hub.channels q) = n.
Proof.
  assert (Hv : Forall (fun x => 0 <= x < 2 ^ 16)
                 (take (Z.to_nat (Sensor.pkt_n packet_4ch)) (Sensor.pkt_v packet_4ch))).
  { vm_compute. repeat constructor; discriminate. }
  cbv zeta. split.
  - repeat split; try (vm_compute; (discriminate || reflexivity || lia)). exact Hv.
  - apply (datagram_round_trip packet_4ch mac_A1 Hub.boot);
      try (vm_compute; (split; (discriminate || reflexivity)) || reflexivity || lia).
    exact Hv.
Defined.

Lemma period_zero_at_2000 :
  1000 < 2000
  /\ Sensor.periodMs 2000 = 0
  /\ Sensor.periodMs 0 = 0
  /\ (forall t s, exists c,
        snd (Sensor.loop pins_4ch 2000 lroundf_zero t s) = Some c)
  /\ (forall t s,
        Sensor.loop pins_4ch 2000 lroundf_zero t s
        = Sensor.loop pins_4ch 0 lroundf_zero t s)
  /\ (forall ts s,
        Sensor.run pins_4ch 2000 lroundf_zero ts s
        = Sensor.run pins_4ch 0 lroundf_zero ts s).
Proof.
  split; [lia|]. apply (period_zero_above_1000 pins_4ch lroundf_zero 2000). lia.
Defined.

(** At the default 250 Hz the period is 4 ms and a pass 2 ms after a send
    sends nothing; at 1000 Hz the period is still 1 ms. *)
Example period_250 : Sensor.periodMs 250 = 4 /\ Sensor.periodMs 1000 = 1.
Proof. split; reflexivity. Qed.

(** * Further properties of the hub *)

(** ** The mailbox *)

Lemma memcpy_memcpy (dst a b : list byte) (ka kb : nat) :
  (ka <= kb)%nat -> (ka <= length a)%nat ->
  memcpy (memcpy dst a ka) b kb = memcpy dst b kb.
Proof.
  intros Hk Ha. unfold memcpy. f_equal.
  rewrite drop_app_ge by (rewrite length_take; lia).
  rewrite length_take, drop_drop. f_equal. lia.
Qed.

Lemma onRecv_reject (mac data : list byte) (s : Hub.state) :
  Hub.accepts data = false -> Hub.onRecv mac data s = s.
Proof.
  unfold Hub.accepts, Hub.onRecv. intros H%negb_false_iff. now rewrite H.
Qed.

Lemma accepts_length (data : list byte) :
  Hub.accepts data = true <-> (11 <= length data)%nat.
Proof.
  unfold Hub.accepts.
  change (sizeof_uint8 * 2 + 3 + sizeof_uint16 + sizeof_uint32) with 11.
  destruct (Z.ltb_spec (Z.of_nat (length data)) 11); cbn; split; intros;
    (lia || congruence).
Qed.

(** X8: a datagram of 75 bytes or more replaces the whole mailbox with its
    first 75 bytes; what follows them has no effect on the hub at all. *)
Theorem onRecv_oversize_truncated (mac data : list byte) (s : Hub.state) :
  Hub.wf s ->
  (75 <= length data)%nat ->
  Hub.pkt (Hub.onRecv mac data s) = take 75 data
  /\ Hub.onRecv mac data s = Hub.onRecv mac (take 75 data) s.
Proof.
  intros [Hp _] Hlen. change (Z.to_nat sizeof_TouchPacket) with 75%nat in Hp.
  rewrite (onRecv_accept mac data) by lia.
  rewrite (onRecv_accept mac (take 75 data)) by (rewrite length_take; lia).
  rewrite length_take.
  replace (Nat.min (length data) 75) with 75%nat by lia.
  replace (Nat.min (Nat.min 75 (length data)) 75) with 75%nat by lia.
  cbn [Hub.pkt]. unfold memcpy at 1 2 4.
  rewrite take_take, Nat.min_id, (drop_ge (Hub.pkt s)) by lia.
  split; [apply app_nil_r | reflexivity].
Qed.

Lemma onRecv_oversize_100_bytes :
  (Hub.wf Hub.boot /\ (75 <= length datagram_oversize)%nat)
  /\ Hub.pkt (Hub.onRecv mac_A1 datagram_oversize Hub.boot) = take 75 datagram_oversize
  /\ Hub.onRecv mac_A1 datagram_oversize Hub.boot
     = Hub.onRecv mac_A1 (take 75 datagram_oversize) Hub.boot.
Proof.
  assert (Hwf : Hub.wf Hub.boot) by (split; reflexivity).
  assert (Hlen : (75 <= length datagram_oversize)%nat) by (vm_compute; lia).
  split; [split; assumption|].
  apply (onRecv_oversize_truncated mac_A1 datagram_oversize Hub.boot Hwf Hlen).
Defined.

Lemma onRecv_wf (mac data : list byte) (s : Hub.state) :
  (6 <= length mac)%nat -> Hub.wf s -> Hub.wf (Hub.onRecv mac data s).
Proof.
  intros Hmac [Hp Hl]. change (Z.to_nat sizeof_TouchPacket) with 75%nat in Hp.
  destruct (Hub.accepts data) eqn:Hacc.
  - apply accepts_length in Hacc. rewrite onRecv_accept by exact Hacc.
    split; cbn [Hub.pkt Hub.lastSender]; rewrite memcpy_length; try lia.
    change (Z.to_nat sizeof_TouchPacket) with 75%nat. exact Hp.
  - rewrite onRecv_reject by exact Hacc. now split.
Qed.

Lemma hub_loop_wf (s : Hub.state) : Hub.wf s -> Hub.wf (fst (Hub.loop s)).
Proof. intros H. unfold Hub.loop. now destruct (Hub.pktReady s). Qed.

(** X9: whatever arrives and however [onRecv] and [loop] alternate, the mailbox
    stays 75 bytes and the stored sender 6 bytes: no datagram, short or
    long, changes the size of either buffer. *)
Theorem hub_buffers_keep_size (evs : list Hub.event) (s : Hub.state) :
  Hub.wf s ->
  Forall (fun e => match e with
                   | Hub.Recv mac _ => length mac = 6%nat
                   | Hub.Loop => True
                   end) evs ->
  Hub.wf (fst (Hub.run evs s)).
Proof.
  intros Hs Hevs. revert s Hs.
  induction Hevs as [|e evs He _ IH]; intros s Hs; [exact Hs|].
  destruct e as [mac data|]; cbn [Hub.run].
  - apply IH, onRecv_wf; [lia | exact Hs].
  - pose proof (hub_loop_wf s Hs) as H1.
    destruct (Hub.loop s) as [s1 out]. cbn [fst] in H1.
    specialize (IH s1 H1). now destruct (Hub.run evs s1).
Qed.

Lemma hub_buffers_after_short :
  (Hub.wf Hub.boot
   /\ Forall (fun e => match e with
                       | Hub.Recv mac _ => length mac = 6%nat
                       | Hub.Loop => True
                       end)
             [Hub.Recv mac_A1 datagram_oversize; Hub.Loop;
              Hub.Recv mac_A1 datagram_short])
  /\ Hub.wf (fst (Hub.run [Hub.Recv mac_A1 datagram_oversize; Hub.Loop;
                           Hub.Recv mac_A1 datagram_short] Hub.boot)).
Proof.
  assert (Hwf : Hub.wf Hub.boot) by (split; reflexivity).
  assert (Hevs : Forall (fun e => match e with
                                  | Hub.Recv mac _ => length mac = 6%nat
                                  | Hub.Loop => True
                                  end)
                   [Hub.Recv mac_A1 datagram_oversize; Hub.Loop;
                    Hub.Recv mac_A1 datagram_short])
    by (repeat constructor).
  split; [split; assumption|].
  apply (hub_buffers_keep_size _ Hub.boot Hwf Hevs).
Defined.

(** X10: when two datagrams are accepted with no pass of [loop] between them and
    the later is at least as long as the earlier, nothing of the earlier
    one is left: the hub is in the state the later one alone would have put
    it in. *)
Theorem later_datagram_supersedes
    (mac_a a mac_b b : list byte) (s : Hub.state) :
  (11 <= length a)%nat ->
  (length a <= length b)%nat ->
  (6 <= length mac_a)%nat ->
  Hub.onRecv mac_b b (Hub.onRecv mac_a a s) = Hub.onRecv mac_b b s.
Proof.
  intros Ha Hab Hma.
  rewrite (onRecv_accept mac_a a) by exact Ha.
  rewrite !(onRecv_accept mac_b b) by lia.
  cbn [Hub.pkt Hub.lastSender]. f_equal; apply memcpy_memcpy; lia.
Qed.

Lemma later_datagram_supersedes_short_then_4ch :
  ((11 <= length datagram_short)%nat
   /\ (length datagram_short <= length datagram_4ch)%nat
   /\ (6 <= length mac_A1)%nat)
  /\ Hub.onRecv mac_A1 datagram_4ch (Hub.onRecv mac_A1 datagram_short Hub.boot)
     = Hub.onRecv mac_A1 datagram_4ch Hub.boot.
Proof.
  assert (H1 : (11 <= length datagram_short)%nat) by (vm_compute; lia).
  assert (H2 : (length datagram_short <= length datagram_4ch)%nat) by (vm_compute; lia).
  assert (H3 : (6 <= length mac_A1)%nat) by (vm_compute; lia).
  split; [repeat split; assumption|].
  apply (later_datagram_supersedes mac_A1 datagram_short mac_A1 datagram_4ch
           Hub.boot H1 H2 H3).
Defined.

(** ** Lines on the serial port *)

Lemma count_char_app (c : ascii) (s t : string) :
  count_char c (s ++ t)%string = (count_char c s + count_char c t)%nat.
Proof. induction s as [|a s IH]; simpl; [reflexivity | rewrite IH; lia]. Qed.

Lemma count_char_absent (c : ascii) (s : string) :
  string_forall (fun a => negb (Ascii.eqb a c)) s = true -> count_char c s = 0%nat.
Proof.
  induction s as [|a s IH]; [reflexivity|]. simpl.
  intros [Ha Hs]%andb_true_iff. apply negb_true_iff in Ha.
  now rewrite Ha, (IH Hs).
Qed.

Lemma line_one_LF (p m : list byte) : count_char LF (Hub.line p m) = 1%nat.
Proof.
  rewrite line_eq, count_char_app.
  rewrite count_char_absent; [reflexivity|].
  apply (no_LF_join "touch"), (line_fields_plain p m).
Qed.

(** X11: the hub never writes more lines than it has accepted datagrams: over
    any sequence of receive callbacks and passes of [loop], the line feeds
    written number at most the accepted datagrams, plus one if a datagram
    was already waiting. Undersize datagrams and idle passes add none. *)
Theorem lines_at_most_accepted (evs : list Hub.event) (s : Hub.state) :
  (count_char LF (snd (Hub.run evs s))
   <= (if Hub.pktReady s then 1 else 0) + Hub.accepted evs)%nat.
Proof.
  revert s. induction evs as [|e evs IH]; intros s; [cbn; lia|].
  destruct e as [mac data|]; cbn [Hub.run Hub.accepted].
  - specialize (IH (Hub.onRecv mac data s)).
    destruct (Hub.accepts data) eqn:Hacc.
    + destruct (Hub.pktReady (Hub.onRecv mac data s)), (Hub.pktReady s); lia.
    + rewrite onRecv_reject in * by exact Hacc. lia.
  - destruct (Hub.pktReady s) eqn:Hr.
    + rewrite loop_ready by exact Hr.
      specialize (IH (Hub.State false (Hub.pkt s) (Hub.lastSender s))).
      destruct (Hub.run evs _) as [s2 outs]. cbn [snd Hub.pktReady] in *.
      rewrite count_char_app, line_one_LF. lia.
    + unfold Hub.loop. rewrite Hr. cbn [negb].
      specialize (IH s). rewrite Hr in IH.
      destruct (Hub.run evs s) as [s2 outs]. exact IH.
Qed.

(** Three passes after one accepted and one undersize datagram: one line. *)
Example one_line_for_one_datagram :
  count_char LF (snd (Hub.run [Hub.Recv mac_A1 datagram_undersize;
                               Hub.Recv mac_A1 datagram_4ch;
                               Hub.Loop; Hub.Loop; Hub.Loop] Hub.boot)) = 1%nat.
Proof. reflexivity. Qed.

Lemma printNumber_loop_length (fuel : nat) :
  forall (k : nat) (n : Z) (buf : string),
    (1 <= k)%nat -> 0 <= n < 10 ^ Z.of_nat k ->
    (String.length buf < String.length (printNumber_loop fuel n buf)
     <= String.length buf + k)%nat.
Proof.
  induction fuel as [|fuel IH]; intros k n buf Hk Hn; [simpl; lia|].
  simpl. destruct (Z.eqb_spec (n / 10) 0) as [Hz|Hnz]; [simpl; lia|].
  assert (Hq : 0 <= n / 10) by (apply Z.div_pos; lia).
  destruct k as [|[|k]]; [lia| |].
  - exfalso. apply Hnz. apply Z.div_small. exact Hn.
  - assert (Hlt : n / 10 < 10 ^ Z.of_nat (S k)).
    { apply Z.div_lt_upper_bound; [lia|].
      replace (Z.of_nat (S (S k))) with (Z.succ (Z.of_nat (S k))) in Hn by lia.
      rewrite Z.pow_succ_r in Hn by lia. lia. }
    specialize (IH (S k) (n / 10) (String (digit_char (n mod 10)) buf)
                  ltac:(lia) ltac:(lia)).
    simpl in IH. lia.
Qed.

Lemma print_int_length (k : nat) (n : Z) :
  (1 <= k)%nat -> 0 <= n < 10 ^ Z.of_nat k ->
  (1 <= String.length (print_int n) <= k)%nat.
Proof.
  intros Hk Hn. rewrite print_int_nonneg by lia. unfold printNumber.
  pose proof (printNumber_loop_length (Z.to_nat (Z.log2 n)) k n EmptyString Hk Hn) as H.
  simpl in H. lia.
Qed.

Lemma comma_each_length (fs : list string) (k : nat) :
  Forall (fun f => (1 <= String.length f <= k)%nat) fs ->
  (2 * length fs <= String.length (comma_each fs) <= (1 + k) * length fs)%nat.
Proof.
  induction 1 as [|f fs Hf _ IH]; [simpl; lia|].
  cbn [comma_each length String.length]. rewrite String.app_length. lia.
Qed.

(** X12: a line is between 32 and 239 characters long, terminator included
    (6 for the prefix, 12 + 6 hex digits, at most 5 + 10 + 3 digits of
    seq, ms and n, at most 32 fields of at most 5 digits, the commas and
    the line feed). *)
Theorem line_length_bounds (s : Hub.state) :
  Hub.pktReady s = true ->
  (32 <= String.length (snd (Hub.loop s)) <= 239)%nat.
Proof.
  intros Hr. rewrite loop_ready by exact Hr. cbn [snd].
  set (p := Hub.pkt s). set (m := memcpy _ _ _).
  rewrite line_eq. cbn [Hub.header tail app comma_each].
  repeat (rewrite ?String.app_length; cbn [String.length]).
  rewrite (proj2 (macbuf_spec m)), (proj2 (id6_spec p)).
  pose proof (p_seq_range p) as Hsr. pose proof (p_ms_range p) as Hmr.
  pose proof (p_n_range p) as Hn.
  change (2 ^ 16) with 65536 in Hsr. change (2 ^ 32) with 4294967296 in Hmr.
  pose proof (print_int_length 5 (p_seq p) ltac:(lia)) as Hs.
  change (10 ^ Z.of_nat 5) with 100000 in Hs. specialize (Hs ltac:(lia)).
  pose proof (print_int_length 10 (p_ms p) ltac:(lia)) as Hm.
  change (10 ^ Z.of_nat 10) with 10000000000 in Hm. specialize (Hm ltac:(lia)).
  rewrite print_int_nonneg in Hm by lia.
  pose proof (print_int_length 3 (p_n p) ltac:(lia)) as Hnl.
  change (10 ^ Z.of_nat 3) with 1000 in Hnl. specialize (Hnl ltac:(lia)).
  pose proof (comma_each_length (map print_int (Hub.channels p)) 5) as Hc.
  rewrite length_map, channels_length in Hc.
  assert (Hall : Forall (fun f => (1 <= String.length f <= 5)%nat)
                   (map print_int (Hub.channels p))).
  { apply List.Forall_forall. intros f Hf.
    apply in_map_iff in Hf as (v & <- & Hv).
    pose proof (channels_nonneg p) as Hnn. rewrite List.Forall_forall in Hnn.
    apply print_int_length; [lia|]. specialize (Hnn v Hv).
    change (10 ^ Z.of_nat 5) with 100000. change (2 ^ 16) with 65536 in Hnn. lia. }
  specialize (Hc Hall). lia.
Qed.

Lemma line_length_4ch :
  let s := Hub.onRecv mac_A1 datagram_4ch Hub.boot in
  Hub.pktReady s = true
  /\ (32 <= String.length (snd (Hub.loop s)) <= 239)%nat.
Proof.
  split; [reflexivity|].
  apply (line_length_bounds (Hub.onRecv mac_A1 datagram_4ch Hub.boot)). reflexivity.
Defined.

(** Both bounds are met: eleven zero bytes give the shortest line, 75 bytes
    of 0xFF the longest. *)
Example line_length_extremes :
  String.length (snd (Hub.loop (Hub.onRecv mac_A1 (replicate 11 Byte.x00) Hub.boot)))
  = 32%nat
  /\ String.length (snd (Hub.loop (Hub.onRecv mac_A1 (replicate 75 Byte.xff) Hub.boot)))
     = 239%nat.
Proof. split; vm_compute; reflexivity. Qed.

Lemma parse_hex_pairs_hex2 (b : byte) (rest : string) :
  parse_hex_pairs (hex2 b ++ rest)%string = byte.unsigned b :: parse_hex_pairs rest.
Proof.
  pose proof (hex2_spec b) as (_ & _ & H). unfold hex2 in *.
  cbn [append parse_hex_pairs]. cbn [parse_hex2] in H. now injection H as ->.
Qed.

(** X13: a line can be read back into everything it was printed from: its MAC
    field into the six stored sender bytes, its ID field into the three id
    bytes, seq, ms and n into the mailbox fields, and the channel fields, in
    order, into the channel values the loop visited. *)
Theorem line_reads_back (s : Hub.state) :
  Hub.pktReady s = true ->
  Hub.wf s ->
  exists mac id sq ms n vs,
    fields (snd (Hub.loop s))
    = Some ("touch"%string :: mac :: id :: sq :: ms :: n :: vs)
    /\ parse_hex_pairs mac = map byte.unsigned (Hub.lastSender s)
    /\ parse_hex_pairs id
       = map byte.unsigned [p_id (Hub.pkt s) 0; p_id (Hub.pkt s) 1; p_id (Hub.pkt s) 2]
    /\ parse_dec sq = p_seq (Hub.pkt s)
    /\ parse_dec ms = p_ms (Hub.pkt s)
    /\ parse_dec n = p_n (Hub.pkt s)
    /\ map parse_dec vs = Hub.channels (Hub.pkt s).
Proof.
  intros Hr [_ Hl]. rewrite loop_ready by exact Hr. cbn [snd].
  set (p := Hub.pkt s).
  rewrite fields_line. cbn [Hub.header app].
  eexists _, _, _, _, _, _. split; [reflexivity|].
  split.
  { rewrite macbuf_snapshot.
    destruct (Hub.lastSender s) as [|a [|b [|c [|d [|e [|f [|]]]]]]];
      try discriminate Hl.
    unfold Hub.macbuf. rewrite !parse_hex_pairs_hex2.
    rewrite <- (append_nil_r (hex2 _)), parse_hex_pairs_hex2. reflexivity. }
  split.
  { unfold Hub.id6. rewrite !parse_hex_pairs_hex2.
    rewrite <- (append_nil_r (hex2 _)), parse_hex_pairs_hex2. reflexivity. }
  split; [apply print_int_dec, p_seq_range|].
  split; [rewrite <- print_int_nonneg by apply p_ms_range;
          apply print_int_dec, p_ms_range|].
  split; [apply print_int_dec, p_n_range|].
  rewrite map_map. rewrite <- (map_id (Hub.channels p)) at 2.
  apply map_ext_in. intros v Hv.
  pose proof (channels_nonneg p) as Hnn. rewrite List.Forall_forall in Hnn.
  apply print_int_dec. now apply Hnn.
Qed.

Lemma line_reads_back_4ch :
  let s := Hub.onRecv mac_A1 datagram_4ch Hub.boot in
  (Hub.pktReady s = true /\ Hub.wf s)
  /\ exists mac id sq ms n vs,
      fields (snd (Hub.loop s))
      = Some ("touch"%string :: mac :: id :: sq :: ms :: n :: vs)
      /\ parse_hex_pairs mac = map byte.unsigned (Hub.lastSender s)
      /\ parse_hex_pairs id
         = map byte.unsigned [p_id (Hub.pkt s) 0; p_id (Hub.pkt s) 1; p_id (Hub.pkt s) 2]
      /\ parse_dec sq = p_seq (Hub.pkt s)
      /\ parse_dec ms = p_ms (Hub.pkt s)
      /\ parse_dec n = p_n (Hub.pkt s)
      /\ map parse_dec vs = Hub.channels (Hub.pkt s).
Proof.
  assert (Hr : Hub.pktReady (Hub.onRecv mac_A1 datagram_4ch Hub.boot) = true)
    by reflexivity.
  assert (Hwf : Hub.wf (Hub.onRecv mac_A1 datagram_4ch Hub.boot))
    by (split; reflexivity).
  split; [split; assumption|].
  apply (line_reads_back (Hub.onRecv mac_A1 datagram_4ch Hub.boot) Hr Hwf).
Defined.

(** X14: whatever an accepted datagram leaves stale further on, the head of the
    line is always its own: the MAC field reads back as the sender it came
    from, and the id, seq, ms and n fields as the first 11 bytes of that
    datagram. *)
Theorem line_header_is_latest (mac data : list byte) (s : Hub.state) :
  (11 <= length data)%nat ->
  length mac = 6%nat ->
  exists macf idf sq ms n vs,
    fields (snd (Hub.loop (Hub.onRecv mac data s)))
    = Some ("touch"%string :: macf :: idf :: sq :: ms :: n :: vs)
    /\ parse_hex_pairs macf = map byte.unsigned mac
    /\ parse_hex_pairs idf = map byte.unsigned (take 3 (drop 2 data))
    /\ parse_dec sq = le_combine (take 2 (drop 5 data))
    /\ parse_dec ms = le_combine (take 4 (drop 7 data))
    /\ parse_dec n = byte.unsigned (data !!! 1%nat).
Proof.
  intros Hlen Hmac.
  destruct (mailbox_fields mac data s Hlen) as (_ & En & Eid & Eseq & Ems & _).
  rewrite (onRecv_accept mac data) in * by exact Hlen.
  rewrite loop_ready by reflexivity. cbn [snd Hub.pkt Hub.lastSender] in *.
  set (q := memcpy (Hub.pkt s) data _) in *.
  rewrite fields_line. cbn [Hub.header app].
  eexists _, _, _, _, _, _. split; [reflexivity|].
  split.
  { rewrite macbuf_snapshot. unfold Hub.macbuf.
    rewrite !memcpy_total_new by lia.
    destruct mac as [|a [|b [|c [|d [|e [|f [|]]]]]]]; try discriminate Hmac.
    rewrite !parse_hex_pairs_hex2.
    rewrite <- (append_nil_r (hex2 _)), parse_hex_pairs_hex2. reflexivity. }
  split.
  { unfold Hub.id6. rewrite !Eid by lia. rewrite !parse_hex_pairs_hex2.
    rewrite <- (append_nil_r (hex2 _)), parse_hex_pairs_hex2.
    unfold p_id, off_id.
    destruct data as [|d0 [|d1 [|d2 [|d3 [|d4 rest]]]]]; simpl in Hlen; try lia.
    reflexivity. }
  change (le_combine (take 2 (drop 5 data))) with (p_seq data).
  change (le_combine (take 4 (drop 7 data))) with (p_ms data).
  change (byte.unsigned (data !!! 1%nat)) with (p_n data).
  split; [rewrite <- Eseq; apply print_int_dec, p_seq_range|].
  split; [rewrite <- Ems, <- print_int_nonneg by apply p_ms_range;
          apply print_int_dec, p_ms_range|].
  rewrite <- En. apply print_int_dec, p_n_range.
Qed.

Lemma line_header_is_latest_short :
  let s := Hub.onRecv mac_A1 datagram_4ch Hub.boot in
  ((11 <= length datagram_short)%nat /\ length mac_A1 = 6%nat)
  /\ exists macf idf sq ms n vs,
      fields (snd (Hub.loop (Hub.onRecv mac_A1 datagram_short s)))
      = Some ("touch"%string :: macf :: idf :: sq :: ms :: n :: vs)
      /\ parse_hex_pairs macf = map byte.unsigned mac_A1
      /\ parse_hex_pairs idf = map byte.unsigned (take 3 (drop 2 datagram_short))
      /\ parse_dec sq = le_combine (take 2 (drop 5 datagram_short))
      /\ parse_dec ms = le_combine (take 4 (drop 7 datagram_short))
      /\ parse_dec n = byte.unsigned (datagram_short !!! 1%nat).
Proof.
  assert (H1 : (11 <= length datagram_short)%nat) by (vm_compute; lia).
  assert (H2 : length mac_A1 = 6%nat) by reflexivity.
  split; [split; assumption|].
  apply (line_header_is_latest mac_A1 datagram_short
           (Hub.onRecv mac_A1 datagram_4ch Hub.boot) H1 H2).
Defined.

(** ** What [setup] prints *)

Lemma not_touch_line (a : ascii) (rest : string) :
  a <> "t"%char -> ~ lang touch_re (String a rest).
Proof.
  intros Ha (s1 & s2 & E & -> & _). cbn in E. injection E as E _. contradiction.
Qed.

Lemma fields_first_char (a : ascii) (rest : string) (fs : list string) :
  Ascii.eqb a comma = false -> Ascii.eqb a LF = false ->
  fields (String a rest) = Some fs ->
  exists f fs', fs = String a f :: fs'.
Proof.
  intros Hc Hl. unfold fields. cbn [chomp]. rewrite Hl.
  destruct (chomp rest) as [b|]; [|discriminate]. cbn [option_map split_on].
  rewrite Hc. intros [= <-]. destruct (split_on comma b); eauto.
Qed.

(** X15: nothing the hub prints during [setup], neither the failure message nor
    the [HUB_MAC] line, is a telemetry line: it does not match the line
    pattern, and read as comma-separated fields its first field is never
    [touch]. *)
Theorem boot_output_not_telemetry (esp_now_init_ok : bool) (mac : list byte) :
  let out := Hub.boot_output (Hub.setup esp_now_init_ok mac) in
  ~ lang touch_re out
  /\ forall fs, fields out = Some fs -> head fs <> Some "touch"%string.
Proof.
  cbv zeta. unfold Hub.setup.
  destruct esp_now_init_ok; cbn [negb Hub.boot_output Hub.println append].
  - split; [now apply not_touch_line|].
    intros fs Hfs. apply fields_first_char in Hfs as (f & fs' & ->);
      [|reflexivity|reflexivity]. cbn. congruence.
  - split; [now apply not_touch_line|].
    intros fs Hfs. apply fields_first_char in Hfs as (f & fs' & ->);
      [|reflexivity|reflexivity]. cbn. congruence.
Qed.

(** The two things [setup] can print. *)
Example boot_outputs :
  Hub.setup true mac_A1
  = Hub.Ready ("HUB_MAC A1:B2:C3:D4:E5:F6" ++ String LF EmptyString)%string
  /\ Hub.setup false mac_A1
     = Hub.Halted ("ESP-NOW init failed"
                   ++ String (ascii_of_nat 13) (String LF EmptyString))%string.
Proof. split; reflexivity. Qed.

(** * Further properties of the sensor *)

Lemma for_loop_rel {A : Type} (R : A -> A -> Prop) (body : nat -> A -> A) (cnt : nat) :
  (forall j a b, R a b -> R (body j a) (body j b)) ->
  forall (i : nat) (a b : A), R a b -> R (for_loop cnt i body a) (for_loop cnt i body b).
Proof.
  intros Hbody. induction cnt as [|cnt IH]; intros i a b Hab; [exact Hab|].
  simpl. apply IH. now apply Hbody.
Qed.

Lemma s32_add_l (a b : Z) : s32 (s32 a + b) = s32 (a + b).
Proof.
  unfold s32. change (2 ^ 31) with 2147483648. change (2 ^ 32) with 4294967296.
  f_equal.
  replace ((a + 2147483648) mod 4294967296 - 2147483648 + b + 2147483648)
    with ((a + 2147483648) mod 4294967296 + b) by lia.
  rewrite Z.add_mod_idemp_l by lia. f_equal. lia.
Qed.

Lemma accumulate_sum (rd : nat -> Z) (cnt : nat) :
  forall (i : nat) (a : Z),
    for_loop cnt i (fun k acc => s32 (acc + rd k)) (s32 a)
    = s32 (a + foldr Z.add 0 (map rd (seq i cnt))).
Proof.
  induction cnt as [|cnt IH]; intros i a.
  - simpl. now rewrite Z.add_0_r.
  - cbn [for_loop seq map foldr]. rewrite s32_add_l, IH. f_equal. lia.
Qed.

(** The accumulated [long] is the sum of the 32 readings, wrapped once. *)
Lemma calibration_sum_eq (rd : nat -> Z) :
  Sensor.calibration_sum rd = s32 (foldr Z.add 0 (map rd (seq 0 32))).
Proof.
  unfold Sensor.calibration_sum.
  pose proof (accumulate_sum rd 32 0 0) as H.
  rewrite Z.add_0_l in H. exact H.
Qed.

Section SensorMore.

Variable TOUCH_PINS : list Z.
Variable TARGET_HZ : Z.
Variable lroundf_other : F32.float -> Z.

Local Abbreviation NUM_CH := (Sensor.NUM_CH TOUCH_PINS).
Local Abbreviation lroundf := (Sensor.lroundf lroundf_other).
Local Abbreviation setup := (Sensor.setup TOUCH_PINS).
Local Abbreviation loop := (Sensor.loop TOUCH_PINS TARGET_HZ lroundf_other).
Local Abbreviation run := (Sensor.run TOUCH_PINS TARGET_HZ lroundf_other).
Local Abbreviation filtered := (Sensor.filtered TOUCH_PINS).
Local Abbreviation due := (Sensor.due TOUCH_PINS TARGET_HZ).
Local Abbreviation state_at := (Sensor.state_at TOUCH_PINS TARGET_HZ lroundf_other).
Local Abbreviation reachable := (Sensor.reachable TOUCH_PINS TARGET_HZ lroundf_other).

(** ** Calibration in [setup] *)

Lemma calibrate_loop_spec (rd : nat -> nat -> Z) (s : Sensor.state) (cnt : nat) :
  (cnt <= length (Sensor.filt s))%nat ->
  (cnt <= length (Sensor.baseline s))%nat ->
  let s' := for_loop cnt 0 (Sensor.calibrate rd) s in
  forall i : nat,
    ((i < cnt)%nat ->
     Sensor.baseline s' !!! i
     = F32.div (F32.of_int (Sensor.calibration_sum (rd i))) (F32.of_int 32)
     /\ Sensor.filt s' !!! i = Sensor.baseline s' !!! i)
    /\ ((cnt <= i)%nat ->
        Sensor.filt s' !!! i = Sensor.filt s !!! i
        /\ Sensor.baseline s' !!! i = Sensor.baseline s !!! i).
Proof.
  induction cnt as [|cnt IH]; intros Hf Hb; cbv zeta.
  - intros i. split; [lia | now intros _].
  - rewrite for_loop_snoc. cbn [Nat.add].
    specialize (IH ltac:(lia) ltac:(lia)). cbv zeta in IH.
    pose proof (calibrate_frame rd cnt 0 s) as (_ & _ & Lf & Lb).
    cbv zeta in Lf, Lb.
    set (sc := for_loop cnt 0 (Sensor.calibrate rd) s) in *.
    intros i. cbn [Sensor.calibrate Sensor.filt Sensor.baseline
                     Sensor.set_filt Sensor.set_baseline].
    destruct (decide (i = cnt)) as [->|Hne].
    + split; [intros _ | lia].
      rewrite !list_lookup_total_insert_eq by lia.
      unfold Sensor.calibration_sum. split; reflexivity.
    + rewrite !list_lookup_total_insert_ne by congruence.
      destruct (IH i) as [Hlt Hge]. split; intros Hi; [apply Hlt | apply Hge]; lia.
Qed.

(** X1: after [setup] on a freshly booted sensor the datagram header is filled
    in (ver 1, n = NUM_CH, id the last three bytes of the station MAC), the
    counter is 0, and every configured channel has its baseline at the
    sum of its 32 readings (accumulated in a [long]) divided by 32.0f, with
    filt seeded to exactly the same value; the other slots stay zero. *)
Theorem setup_seeds (mac : list byte) (rd : nat -> nat -> Z) :
  length mac = 6%nat ->
  let s := setup mac rd Sensor.boot in
  Sensor.pkt_ver (Sensor.pkt s) = 1
  /\ Sensor.pkt_n (Sensor.pkt s) = Z.of_nat NUM_CH
  /\ Sensor.pkt_id (Sensor.pkt s) = drop 3 mac
  /\ Sensor.seq s = 0
  /\ forall i : nat,
      ((i < NUM_CH)%nat ->
       Sensor.baseline s !!! i
       = F32.div (F32.of_int (s32 (foldr Z.add 0 (map (rd i) (seq 0 32)))))
                 (F32.of_int 32)
       /\ Sensor.filt s !!! i = Sensor.baseline s !!! i)
      /\ ((NUM_CH <= i < MAX_CH)%nat ->
          Sensor.filt s !!! i = F32.zero /\ Sensor.baseline s !!! i = F32.zero).
Proof.
  intros Hmac s. subst s. unfold Sensor.setup.
  match goal with |- context [for_loop _ _ _ ?x] => set (s1 := x) end.
  pose proof (calibrate_frame rd NUM_CH 0 s1) as (Ep & Es & _ & _).
  cbv zeta in Ep, Es. rewrite Ep, Es.
  pose proof (NUM_CH_le TOUCH_PINS) as Hle.
  assert (Hf : length (Sensor.filt s1) = 32%nat) by reflexivity.
  assert (Hb : length (Sensor.baseline s1) = 32%nat) by reflexivity.
  pose proof (calibrate_loop_spec rd s1 NUM_CH ltac:(lia) ltac:(lia)) as Hspec.
  cbv zeta in Hspec.
  split; [reflexivity|].
  split; [subst s1; cbn; unfold u8; apply Z.mod_small; lia|].
  split.
  { subst s1. cbn [Sensor.pkt Sensor.set_pkt Sensor.pkt_id Sensor.mac_sta
                     Sensor.set_mac_sta Sensor.boot].
    destruct mac as [|a [|b [|c [|d [|e [|f [|]]]]]]]; try discriminate Hmac.
    reflexivity. }
  split; [reflexivity|].
  intros i. destruct (Hspec i) as [Hlt Hge]. split.
  - intros Hi. destruct (Hlt Hi) as [-> ->]. rewrite calibration_sum_eq. now split.
  - intros Hi. destruct (Hge ltac:(lia)) as [-> ->]. subst s1.
    cbn [Sensor.filt Sensor.baseline Sensor.set_pkt Sensor.set_mac_sta Sensor.boot].
    unfold MAX_CH in *. now rewrite lookup_total_replicate_2 by lia.
Qed.

(** ** What never changes from pass to pass *)

Lemma loop_header (t : Sensor.tick) (s : Sensor.state) :
  Sensor.pkt_ver (Sensor.pkt (fst (loop t s))) = Sensor.pkt_ver (Sensor.pkt s)
  /\ Sensor.pkt_id (Sensor.pkt (fst (loop t s))) = Sensor.pkt_id (Sensor.pkt s).
Proof.
  destruct (due t s) eqn:Hdue.
  - edestruct loop_send as (s' & -> & _ & _ & _ & _ & Ev & _ & Ei & _);
      [exact Hdue|]. now split.
  - unfold Sensor.due in Hdue. rewrite loop_idle by exact Hdue. cbn [fst].
    pose proof (filter_loop_frame (Sensor.touchRead t) NUM_CH 0 s) as (Ep & _).
    cbv zeta in Ep. unfold Sensor.filtered. now rewrite Ep.
Qed.

Lemma setup_header (mac : list byte) (rd : nat -> nat -> Z) :
  length mac = 6%nat ->
  Sensor.pkt_ver (Sensor.pkt (setup mac rd Sensor.boot)) = 1
  /\ Sensor.pkt_id (Sensor.pkt (setup mac rd Sensor.boot)) = drop 3 mac.
Proof.
  intros Hmac. unfold Sensor.setup.
  match goal with |- context [for_loop _ _ _ ?x] => set (s1 := x) end.
  pose proof (calibrate_frame rd NUM_CH 0 s1) as (Ep & _). cbv zeta in Ep.
  rewrite Ep. subst s1.
  cbn [Sensor.pkt Sensor.set_pkt Sensor.pkt_ver Sensor.pkt_id Sensor.mac_sta
       Sensor.set_mac_sta Sensor.boot].
  destruct mac as [|a [|b [|c [|d [|e [|f [|]]]]]]]; try discriminate Hmac.
  split; reflexivity.
Qed.

Lemma run_preserve (P : Sensor.state -> Prop) :
  (forall t s, P s -> P (fst (loop t s))) ->
  forall ts s, P s -> P (fst (run ts s)).
Proof.
  intros Hstep. induction ts as [|t ts IH]; intros s Hs; [exact Hs|].
  cbn [Sensor.run]. pose proof (Hstep t s Hs) as H1.
  destruct (loop t s) as [s1 o]. cbn [fst] in H1.
  specialize (IH s1 H1). now destruct (run ts s1).
Qed.

(** X2: every datagram a sensor sends after [setup] carries ver 1, the last
    three bytes of its station MAC as id, and n = NUM_CH: the header
    written once in [setup] is never disturbed by [loop]. *)
Theorem sent_header
    (mac : list byte) (rd : nat -> nat -> Z) (ts : list Sensor.tick)
    (j : nat) (c : Sensor.send_call) :
  length mac = 6%nat ->
  snd (run ts (setup mac rd Sensor.boot)) !! j = Some (Some c) ->
  p_ver (Sensor.data c) = 1
  /\ [p_id (Sensor.data c) 0; p_id (Sensor.data c) 1; p_id (Sensor.data c) 2]
     = drop 3 mac
  /\ p_n (Sensor.data c) = Z.of_nat NUM_CH.
Proof.
  intros Hmac Hj. set (s0 := setup mac rd Sensor.boot) in *.
  pose proof (setup_header mac rd Hmac) as (Hver & Hid). fold s0 in Hver, Hid.
  pose proof (setup_inv TOUCH_PINS mac rd) as Hinv. fold s0 in Hinv.
  assert (Hlt : (j < length ts)%nat).
  { apply lookup_lt_Some in Hj.
    assert (Hl : forall ts s, length (snd (run ts s)) = length ts).
    { clear. induction ts as [|t ts IH]; intros s; [reflexivity|].
      cbn [Sensor.run]. destruct (loop t s) as [s1 o]. specialize (IH s1).
      destruct (run ts s1). cbn [snd length] in *. now rewrite IH. }
    now rewrite Hl in Hj. }
  destruct (lookup_lt_is_Some_2 ts j Hlt) as [t Ht].
  edestruct run_step as [Hout _]; [exact Ht|]. cbv zeta in Hout.
  rewrite Hj in Hout. injection Hout as Hout.
  set (x := state_at ts s0 j) in *.
  assert (Hx : Sensor.pkt_ver (Sensor.pkt x) = 1
               /\ Sensor.pkt_id (Sensor.pkt x) = drop 3 mac).
  { subst x. unfold Sensor.state_at.
    apply (run_preserve (fun s => Sensor.pkt_ver (Sensor.pkt s) = 1
                                  /\ Sensor.pkt_id (Sensor.pkt s) = drop 3 mac)).
    - intros t0 s [H1 H2]. destruct (loop_header t0 s) as [-> ->]. now split.
    - now split. }
  assert (Hix : Sensor.inv TOUCH_PINS x) by (subst x; now apply state_at_inv).
  assert (Hloop : loop t x = (fst (loop t x), Some c))
    by (rewrite Hout; apply surjective_pairing).
  pose proof (loop_header t x) as [Ev Ei].
  edestruct loop_sends as (Ec & _ & _ & _ & Hn & _); [exact Hix | exact Hloop |].
  pose proof (loop_inv TOUCH_PINS TARGET_HZ lroundf_other t x Hix)
    as (Hpn & Hpid & Hpv & _).
  set (s' := fst (loop t x)) in *. destruct Hx as [Hxv Hxi].
  assert (Hdata : Sensor.data c
                  = take (Z.to_nat (11 + 2 * Z.of_nat NUM_CH)) (Sensor.image (Sensor.pkt s'))).
  { rewrite Ec. cbn [Sensor.esp_now_send Sensor.data]. now rewrite wire_len_eq, Hpn. }
  destruct (prefix_fields (Sensor.image (Sensor.pkt s'))
              (Z.to_nat (11 + 2 * Z.of_nat NUM_CH)) ltac:(lia))
    as (Fver & _ & Fid & _).
  rewrite Hdata, Fver, !Fid, image_ver, !image_id by (assumption || lia).
  rewrite Ev, Hxv, Ei, Hxi.
  split; [reflexivity|]. split; [|rewrite <- Hdata; exact Hn].
  destruct mac as [|a [|b [|d [|e [|f [|g [|]]]]]]]; try discriminate Hmac.
  reflexivity.
Qed.

(** ** Numbering *)

Lemma run_length (ts : list Sensor.tick) :
  forall s, length (snd (run ts s)) = length ts.
Proof.
  induction ts as [|t ts IH]; intros s; [reflexivity|].
  cbn [Sensor.run]. destruct (loop t s) as [s1 o]. specialize (IH s1).
  destruct (run ts s1). cbn [snd length] in *. now rewrite IH.
Qed.

Lemma sends_snoc (os : list (option Sensor.send_call)) (o : option Sensor.send_call) :
  Sensor.sends (os ++ [o])
  = (Sensor.sends os + match o with Some _ => 1 | None => 0 end)%nat.
Proof.
  induction os as [|[c|] os IH]; cbn [app Sensor.sends].
  - destruct o; reflexivity.
  - rewrite IH. lia.
  - exact IH.
Qed.

Lemma seq_counts (ts : list Sensor.tick) (s : Sensor.state) :
  Sensor.inv TOUCH_PINS s ->
  forall j : nat,
    (j <= length ts)%nat ->
    Sensor.seq (state_at ts s j)
    = u16 (Sensor.seq s + Z.of_nat (Sensor.sends (take j (snd (run ts s))))).
Proof.
  intros Hs. induction j as [|j IH]; intros Hj.
  - unfold Sensor.state_at. cbn. rewrite Z.add_0_r. unfold u16.
    symmetry. apply Z.mod_small. apply Hs.
  - specialize (IH ltac:(lia)).
    destruct (lookup_lt_is_Some_2 ts j ltac:(lia)) as [t Ht].
    edestruct run_step as [Hout Hnext]; [exact Ht|]. cbv zeta in Hout, Hnext.
    rewrite Hnext. rewrite (take_S_r _ _ _ Hout), sends_snoc.
    pose proof (state_at_inv TOUCH_PINS TARGET_HZ lroundf_other ts s j Hs) as Hix.
    set (x := state_at ts s j) in *.
    destruct (snd (loop t x)) as [c|] eqn:Ho.
    + assert (Hloop : loop t x = (fst (loop t x), Some c))
        by (rewrite <- Ho; apply surjective_pairing).
      edestruct loop_sends as (_ & Eseq & _); [exact Hix | exact Hloop |].
      rewrite Eseq, IH. unfold u16. change (2 ^ 16) with 65536.
      rewrite Z.add_mod_idemp_l by lia. f_equal. lia.
    + rewrite loop_none_seq by exact Ho. rewrite IH. f_equal. lia.
Qed.

(** X3: datagrams are numbered from 0 in the order they are sent: the one sent
    in pass [j] carries as seq the number of sends in the passes before it,
    modulo 2^16. *)
Theorem seq_numbers_sends
    (mac : list byte) (rd : nat -> nat -> Z) (ts : list Sensor.tick)
    (j : nat) (c : Sensor.send_call) :
  let out := snd (run ts (setup mac rd Sensor.boot)) in
  out !! j = Some (Some c) ->
  p_seq (Sensor.data c) = u16 (Z.of_nat (Sensor.sends (take j out))).
Proof.
  intros out Hj. subst out. set (s0 := setup mac rd Sensor.boot) in *.
  pose proof (setup_inv TOUCH_PINS mac rd) as Hinv. fold s0 in Hinv.
  assert (Hlt : (j < length ts)%nat).
  { apply lookup_lt_Some in Hj. now rewrite run_length in Hj. }
  destruct (lookup_lt_is_Some_2 ts j Hlt) as [t Ht].
  edestruct run_step as [Hout _]; [exact Ht|]. cbv zeta in Hout.
  rewrite Hj in Hout. injection Hout as Hout.
  pose proof (state_at_inv TOUCH_PINS TARGET_HZ lroundf_other ts s0 j Hinv) as Hix.
  assert (Hloop : loop t (state_at ts s0 j) = (fst (loop t (state_at ts s0 j)), Some c))
    by (rewrite Hout; apply surjective_pairing).
  edestruct loop_sends as (_ & _ & _ & _ & _ & Hseq & _); [exact Hix | exact Hloop |].
  rewrite Hseq, (seq_counts ts s0 Hinv j) by lia.
  assert (H0 : Sensor.seq s0 = 0).
  { subst s0. unfold Sensor.setup.
    match goal with |- context [for_loop _ _ _ ?x] => set (s1 := x) end.
    pose proof (calibrate_frame rd NUM_CH 0 s1) as (_ & Es & _).
    cbv zeta in Es. now rewrite Es. }
  now rewrite H0.
Qed.

(** ** Pacing *)

Lemma loop_sent_lastSend (t : Sensor.tick) (s s' : Sensor.state) (c : Sensor.send_call) :
  loop t s = (s', Some c) -> Sensor.lastSend s' = u32 (Sensor.uptime t).
Proof.
  intros Hloop. destruct (due t s) eqn:Hdue.
  - edestruct loop_send as (s1 & E & _ & _ & _ & El & _); [exact Hdue|].
    rewrite E in Hloop. now injection Hloop as <- _.
  - unfold Sensor.due in Hdue. rewrite loop_idle in Hloop by exact Hdue.
    discriminate Hloop.
Qed.

(** X4: with a send rate between 1 and 1000 Hz the period is at least 1 ms, and
    after a send the next pass sends exactly when at least one period has
    elapsed since (for elapsed times below 2^32 ms, so also across the
    wrap of [millis()]). A pass that comes earlier sends nothing and leaves
    the datagram buffer, the counter and [lastSend] as they were. *)
Theorem send_spacing
    (t t' : Sensor.tick) (s s' : Sensor.state) (c : Sensor.send_call) :
  0 < TARGET_HZ <= 1000 ->
  loop t s = (s', Some c) ->
  0 <= Sensor.uptime t' - Sensor.uptime t < 2 ^ 32 ->
  let elapsed := Sensor.uptime t' - Sensor.uptime t in
  let period := Sensor.periodMs TARGET_HZ in
  1 <= period
  /\ (period <= elapsed -> exists c', snd (loop t' s') = Some c')
  /\ (elapsed < period ->
      snd (loop t' s') = None
      /\ Sensor.pkt (fst (loop t' s')) = Sensor.pkt s'
      /\ Sensor.seq (fst (loop t' s')) = Sensor.seq s'
      /\ Sensor.lastSend (fst (loop t' s')) = Sensor.lastSend s').
Proof.
  intros Hhz Hloop Hel elapsed period.
  assert (Hp : 1 <= period).
  { subst period. unfold Sensor.periodMs.
    destruct (Z.ltb_spec 0 TARGET_HZ); [|lia].
    apply Z.div_le_lower_bound; lia. }
  pose proof (loop_sent_lastSend t s s' c Hloop) as Hls.
  pose proof (filter_loop_frame (Sensor.touchRead t') NUM_CH 0 s')
    as (Ep & Es & El & _). cbv zeta in Ep, Es, El.
  assert (Hd : due t' s' = (period <=? elapsed)).
  { unfold Sensor.due, Sensor.filtered. rewrite El, Hls. fold period.
    destruct (Z.eqb_spec period 0); [lia|]. cbn [orb]. f_equal.
    subst elapsed. unfold u32. change (2 ^ 32) with 4294967296 in *.
    rewrite Zminus_mod_idemp_l, Zminus_mod_idemp_r. apply Z.mod_small. lia. }
  split; [exact Hp|]. split.
  - intros Hge. edestruct loop_send as (s1 & E & _).
    { rewrite Hd. apply Z.leb_le. exact Hge. }
    rewrite E. cbn [snd]. eauto.
  - intros Hlt. rewrite loop_idle.
    + cbn [fst snd]. unfold Sensor.filtered. now rewrite Ep, Es, El.
    + fold (due t' s'). rewrite Hd. apply Z.leb_gt. exact Hlt.
Qed.

(** ** Channels that are not configured *)

Lemma loop_send_rest (t : Sensor.tick) (s : Sensor.state) (i : nat) :
  (NUM_CH <= length (Sensor.pkt_v (Sensor.pkt s)))%nat ->
  (NUM_CH <= i)%nat ->
  Sensor.pkt_v (Sensor.pkt (fst (loop t s))) !!! i = Sensor.pkt_v (Sensor.pkt s) !!! i.
Proof.
  intros Hv Hi.
  pose proof (filter_loop_frame (Sensor.touchRead t) NUM_CH 0 s) as (Ep & _).
  cbv zeta in Ep.
  unfold Sensor.loop.
  match goal with |- context [if ?b then _ else _] => destruct b end.
  - cbn [fst].
    match goal with
    | |- Sensor.pkt_v (Sensor.pkt (for_loop _ _ _ ?x)) !!! _ = _ => set (s4 := x)
    end.
    assert (E4 : Sensor.pkt_v (Sensor.pkt s4) = Sensor.pkt_v (Sensor.pkt s)).
    { subst s4.
      cbn [Sensor.pkt Sensor.set_seq Sensor.set_pkt Sensor.set_lastSend Sensor.pkt_v].
      now rewrite Ep. }
    destruct (pack_loop_spec lroundf_other s4 NUM_CH ltac:(rewrite E4; exact Hv) i)
      as [_ Hge].
    rewrite (Hge Hi). now rewrite E4.
  - cbn [fst]. now rewrite Ep.
Qed.

(** X6: slots of the three arrays at or above NUM_CH are never written: in every
    state the sketch can reach, filt, baseline and pkt.v are still zero
    there. *)
Theorem unconfigured_channels_untouched (s : Sensor.state) (i : nat) :
  reachable s ->
  (NUM_CH <= i < MAX_CH)%nat ->
  Sensor.filt s !!! i = F32.zero
  /\ Sensor.baseline s !!! i = F32.zero
  /\ Sensor.pkt_v (Sensor.pkt s) !!! i = 0.
Proof.
  intros (mac & rd & ts & ->) Hi.
  pose proof (setup_inv TOUCH_PINS mac rd) as Hinv0.
  pose proof (NUM_CH_le TOUCH_PINS) as Hle.
  apply (run_preserve
           (fun s => Sensor.inv TOUCH_PINS s
                     /\ Sensor.filt s !!! i = F32.zero
                     /\ Sensor.baseline s !!! i = F32.zero
                     /\ Sensor.pkt_v (Sensor.pkt s) !!! i = 0)).
  - intros t s (Hinv & Hf & Hb & Hv). split; [now apply loop_inv|].
    destruct (loop_filt TOUCH_PINS TARGET_HZ lroundf_other t s) as [-> ->].
    destruct Hinv as (_ & _ & Lv & Lf & Lb & _). unfold MAX_CH in *.
    destruct (filter_loop_spec (Sensor.touchRead t) s NUM_CH
                ltac:(lia) ltac:(lia) i) as [_ Hge].
    unfold Sensor.filtered. destruct (Hge ltac:(lia)) as [-> ->].
    rewrite loop_send_rest by lia. now repeat split.
  - split; [exact Hinv0|].
    unfold Sensor.setup.
    match goal with |- context [for_loop _ _ _ ?x] => set (s1 := x) end.
    pose proof (calibrate_frame rd NUM_CH 0 s1) as (Ep & _). cbv zeta in Ep.
    assert (Lf : length (Sensor.filt s1) = 32%nat) by reflexivity.
    assert (Lb : length (Sensor.baseline s1) = 32%nat) by reflexivity.
    destruct (calibrate_loop_spec rd s1 NUM_CH ltac:(lia) ltac:(lia) i) as [_ Hge].
    destruct (Hge ltac:(lia)) as [-> ->]. rewrite Ep. subst s1.
    cbn [Sensor.filt Sensor.baseline Sensor.pkt Sensor.pkt_v Sensor.set_pkt
         Sensor.set_mac_sta Sensor.boot].
    unfold MAX_CH in *. now rewrite !lookup_total_replicate_2 by lia.
Qed.

(** ** The bytes handed to the radio *)

(** X7: a send never reaches past the struct: the length passed is at most
    [sizeof(TouchPacket)] = 75 however many pins are configured, and the
    bytes sent are exactly the first [len] bytes of [pkt]. *)
Theorem send_within_struct (s s' : Sensor.state) (t : Sensor.tick) (c : Sensor.send_call) :
  reachable s ->
  loop t s = (s', Some c) ->
  11 <= Sensor.len c <= sizeof_TouchPacket
  /\ Z.of_nat (length (Sensor.image (Sensor.pkt s'))) = sizeof_TouchPacket
  /\ Sensor.data c = take (Z.to_nat (Sensor.len c)) (Sensor.image (Sensor.pkt s')).
Proof.
  intros Hs Hloop. apply reachable_inv in Hs.
  pose proof (loop_inv TOUCH_PINS TARGET_HZ lroundf_other t s Hs) as Hs'.
  rewrite Hloop in Hs'. cbn [fst] in Hs'. destruct Hs' as (_ & Hid & Hv & _).
  edestruct loop_sends as (Ec & _ & Hlen & _); [exact Hs | exact Hloop |].
  pose proof (NUM_CH_le TOUCH_PINS) as Hle. change sizeof_TouchPacket with 75.
  split; [rewrite Hlen; lia|].
  split; [rewrite image_length, Hv by exact Hid; reflexivity|].
  rewrite Ec. reflexivity.
Qed.

End SensorMore.

(** ** Filtering and sending *)

Lemma filtered_depends_on_filter_state
    (TOUCH_PINS : list Z) (t : Sensor.tick) (s1 s2 : Sensor.state) :
  Sensor.filt s1 = Sensor.filt s2 ->
  Sensor.baseline s1 = Sensor.baseline s2 ->
  Sensor.filt (Sensor.filtered TOUCH_PINS t s1)
  = Sensor.filt (Sensor.filtered TOUCH_PINS t s2)
  /\ Sensor.baseline (Sensor.filtered TOUCH_PINS t s1)
     = Sensor.baseline (Sensor.filtered TOUCH_PINS t s2).
Proof.
  intros Hf Hb. unfold Sensor.filtered.
  apply (for_loop_rel
           (fun a b => Sensor.filt a = Sensor.filt b
                       /\ Sensor.baseline a = Sensor.baseline b)).
  - intros j a b [Ef Eb].
    cbn [Sensor.filter_step Sensor.filt Sensor.baseline Sensor.set_filt
         Sensor.set_baseline].
    now rewrite Ef, Eb.
  - now split.
Qed.

(** X5: the filter does not depend on the pacing: over the same readings, filt
    and baseline end up the same whatever the send rate (and whatever the
    rounding at send time does), because sending reads the filter state
    and never writes it. *)
Theorem filter_independent_of_rate
    (TOUCH_PINS : list Z) (hz hz' : Z) (other other' : F32.float -> Z)
    (ts : list Sensor.tick) (s : Sensor.state) :
  Sensor.filt (fst (Sensor.run TOUCH_PINS hz other ts s))
  = Sensor.filt (fst (Sensor.run TOUCH_PINS hz' other' ts s))
  /\ Sensor.baseline (fst (Sensor.run TOUCH_PINS hz other ts s))
     = Sensor.baseline (fst (Sensor.run TOUCH_PINS hz' other' ts s)).
Proof.
  assert (H : forall s1 s2,
             Sensor.filt s1 = Sensor.filt s2 ->
             Sensor.baseline s1 = Sensor.baseline s2 ->
             Sensor.filt (fst (Sensor.run TOUCH_PINS hz other ts s1))
             = Sensor.filt (fst (Sensor.run TOUCH_PINS hz' other' ts s2))
             /\ Sensor.baseline (fst (Sensor.run TOUCH_PINS hz other ts s1))
                = Sensor.baseline (fst (Sensor.run TOUCH_PINS hz' other' ts s2))).
  { induction ts as [|t ts IH]; intros s1 s2 Hf Hb; [now split|].
    cbn [Sensor.run].
    destruct (loop_filt TOUCH_PINS hz other t s1) as [F1 B1].
    destruct (loop_filt TOUCH_PINS hz' other' t s2) as [F2 B2].
    destruct (filtered_depends_on_filter_state TOUCH_PINS t s1 s2 Hf Hb) as [Ef Eb].
    destruct (Sensor.loop TOUCH_PINS hz other t s1) as [x1 o1].
    destruct (Sensor.loop TOUCH_PINS hz' other' t s2) as [x2 o2].
    cbn [fst] in F1, B1, F2, B2.
    specialize (IH x1 x2 ltac:(congruence) ltac:(congruence)).
    destruct (Sensor.run TOUCH_PINS hz other ts x1).
    destruct (Sensor.run TOUCH_PINS hz' other' ts x2). exact IH. }
  now apply H.
Qed.

(** ** From the sensor's filter to the hub's serial line *)

(** X16: end to end: when a sensor sends and the hub, whatever its mailbox held,
    receives that datagram and drains it, the line's seq, ms and n fields
    read back as the sensor's counter, its uptime modulo 2^32 and NUM_CH,
    and its channel fields, in order, as the sensor's filtered values
    rounded by [lroundf] and clamped into [0, 65535]. *)
Theorem sensor_to_serial
    (TOUCH_PINS : list Z) (TARGET_HZ : Z) (lroundf_other : F32.float -> Z)
    (s s' : Sensor.state) (t : Sensor.tick) (c : Sensor.send_call)
    (mac : list byte) (h : Hub.state) :
  Sensor.reachable TOUCH_PINS TARGET_HZ lroundf_other s ->
  Sensor.loop TOUCH_PINS TARGET_HZ lroundf_other t s = (s', Some c) ->
  exists macf idf sq ms n vs,
    fields (snd (Hub.loop (Hub.onRecv mac (Sensor.data c) h)))
    = Some ("touch"%string :: macf :: idf :: sq :: ms :: n :: vs)
    /\ parse_dec sq = Sensor.seq s
    /\ parse_dec ms = u32 (Sensor.uptime t)
    /\ parse_dec n = Z.of_nat (Sensor.NUM_CH TOUCH_PINS)
    /\ map parse_dec vs
       = map (fun i => Sensor.clamp16
                         (s32 (Sensor.lroundf lroundf_other (Sensor.filt s' !!! i))))
             (seq 0 (Sensor.NUM_CH TOUCH_PINS)).
Proof.
  intros Hs Hloop. apply reachable_inv in Hs.
  destruct (loop_sends TOUCH_PINS TARGET_HZ lroundf_other t s s' c Hs Hloop)
    as (_ & _ & Hlen & Hdl & Hn & Hseq & Hms & Hv).
  pose proof (NUM_CH_le TOUCH_PINS) as Hle.
  set (N := Sensor.NUM_CH TOUCH_PINS) in *.
  assert (Hl : length (Sensor.data c) = (11 + 2 * N)%nat) by lia.
  destruct (mailbox_fields mac (Sensor.data c) h ltac:(lia))
    as (_ & En & _ & Eseq & Ems & Ev).
  rewrite (onRecv_accept mac (Sensor.data c)) in * by lia.
  rewrite loop_ready by reflexivity. cbn [snd Hub.pkt] in *.
  set (q := memcpy (Hub.pkt h) (Sensor.data c) _) in *.
  rewrite fields_line. cbn [Hub.header app].
  eexists _, _, _, _, _, _. split; [reflexivity|].
  split; [rewrite <- Hseq, <- Eseq; apply print_int_dec, p_seq_range|].
  split; [rewrite <- Hms, <- Ems, <- print_int_nonneg by apply p_ms_range;
          apply print_int_dec, p_ms_range|].
  split; [rewrite <- Hn, <- En; apply print_int_dec, p_n_range|].
  rewrite map_map. unfold Hub.channels. rewrite map_map.
  replace (Z.to_nat (Z.min (p_n q) 32)) with N by (rewrite En, Hn; lia).
  apply map_ext_in. intros i Hi. apply in_seq in Hi.
  rewrite <- (Hv i ltac:(lia)), <- (Ev i) by (unfold off_v; lia).
  apply print_int_dec, p_v_range.
Qed.

(** ** The sensor theorems at concrete inputs *)

Lemma setup_seeds_4ch :
  let s := Sensor.setup pins_4ch mac_A1 (fun _ _ => 5000) Sensor.boot in
  length mac_A1 = 6%nat
  /\ Sensor.pkt_ver (Sensor.pkt s) = 1
  /\ Sensor.pkt_n (Sensor.pkt s) = Z.of_nat (Sensor.NUM_CH pins_4ch)
  /\ Sensor.pkt_id (Sensor.pkt s) = drop 3 mac_A1
  /\ Sensor.seq s = 0
  /\ forall i : nat,
      ((i < Sensor.NUM_CH pins_4ch)%nat ->
       Sensor.baseline s !!! i
       = F32.div (F32.of_int (s32 (foldr Z.add 0 (map (fun _ => 5000) (seq 0 32)))))
                 (F32.of_int 32)
       /\ Sensor.filt s !!! i = Sensor.baseline s !!! i)
      /\ ((Sensor.NUM_CH pins_4ch <= i < MAX_CH)%nat ->
          Sensor.filt s !!! i = F32.zero /\ Sensor.baseline s !!! i = F32.zero).
Proof.
  split; [reflexivity|].
  apply (setup_seeds pins_4ch mac_A1 (fun _ _ => 5000)). reflexivity.
Defined.

(** Thirty-two readings of 5000 calibrate to exactly 5000.0f. *)
Example calibrated_5000 :
  Sensor.baseline sensor_4ch !!! 0%nat = F32.of_int 5000
  /\ Sensor.filt sensor_4ch !!! 0%nat = F32.of_int 5000.
Proof. split; vm_compute; reflexivity. Qed.

Lemma sent_header_4ch :
  let out := snd (Sensor.run pins_4ch 250 lroundf_zero ticks_10_12_14
                    (Sensor.setup pins_4ch mac_A1 (fun _ _ => 5000) Sensor.boot)) in
  let c := sent (out !! 2%nat) in
  (length mac_A1 = 6%nat /\ out !! 2%nat = Some (Some c))
  /\ p_ver (Sensor.data c) = 1
  /\ [p_id (Sensor.data c) 0; p_id (Sensor.data c) 1; p_id (Sensor.data c) 2]
     = drop 3 mac_A1
  /\ p_n (Sensor.data c) = Z.of_nat (Sensor.NUM_CH pins_4ch).
Proof.
  cbv zeta. split; [split; [reflexivity | vm_compute; reflexivity]|].
  apply (sent_header pins_4ch 250 lroundf_zero mac_A1 (fun _ _ => 5000)
           ticks_10_12_14 2%nat).
  - reflexivity.
  - vm_compute. reflexivity.
Defined.

Lemma seq_numbers_sends_4ch :
  let out := snd (Sensor.run pins_4ch 250 lroundf_zero ticks_10_12_14
                    (Sensor.setup pins_4ch mac_A1 (fun _ _ => 5000) Sensor.boot)) in
  let c := sent (out !! 2%nat) in
  out !! 2%nat = Some (Some c)
  /\ p_seq (Sensor.data c) = u16 (Z.of_nat (Sensor.sends (take 2 out))).
Proof.
  cbv zeta. split; [vm_compute; reflexivity|].
  apply (seq_numbers_sends pins_4ch 250 lroundf_zero mac_A1 (fun _ _ => 5000)
           ticks_10_12_14 2%nat).
  vm_compute. reflexivity.
Defined.

(** In that run the third pass sends the second datagram, numbered 1. *)
Example second_datagram_is_1 :
  p_seq (Sensor.data (sent (snd (Sensor.run pins_4ch 250 lroundf_zero
                                   ticks_10_12_14 sensor_4ch) !! 2%nat))) = 1.
Proof. vm_compute. reflexivity. Qed.

Lemma send_spacing_10_12 :
  let t := Sensor.Tick 10 reads_5000 in
  let t' := Sensor.Tick 12 reads_5000 in
  let r := Sensor.loop pins_4ch 250 lroundf_zero t sensor_4ch in
  let s' := fst r in
  let c := sent (Some (snd r)) in
  let elapsed := Sensor.uptime t' - Sensor.uptime t in
  let period := Sensor.periodMs 250 in
  (0 < 250 <= 1000 /\ r = (s', Some c) /\ 0 <= elapsed < 2 ^ 32)
  /\ 1 <= period
  /\ (period <= elapsed ->
      exists c', snd (Sensor.loop pins_4ch 250 lroundf_zero t' s') = Some c')
  /\ (elapsed < period ->
      snd (Sensor.loop pins_4ch 250 lroundf_zero t' s') = None
      /\ Sensor.pkt (fst (Sensor.loop pins_4ch 250 lroundf_zero t' s')) = Sensor.pkt s'
      /\ Sensor.seq (fst (Sensor.loop pins_4ch 250 lroundf_zero t' s')) = Sensor.seq s'
      /\ Sensor.lastSend (fst (Sensor.loop pins_4ch 250 lroundf_zero t' s'))
         = Sensor.lastSend s').
Proof.
  cbv zeta. split.
  - split; [lia|]. split; [vm_compute; reflexivity | vm_compute; split; congruence].
  - apply (send_spacing pins_4ch 250 lroundf_zero
             (Sensor.Tick 10 reads_5000) (Sensor.Tick 12 reads_5000) sensor_4ch
             (fst (Sensor.loop pins_4ch 250 lroundf_zero
                     (Sensor.Tick 10 reads_5000) sensor_4ch))
             (sent (Some (snd (Sensor.loop pins_4ch 250 lroundf_zero
                                 (Sensor.Tick 10 reads_5000) sensor_4ch))))).
    + lia.
    + vm_compute. reflexivity.
    + vm_compute. split; congruence.
Defined.

Lemma unconfigured_channels_untouched_4ch :
  (Sensor.reachable pins_4ch 250 lroundf_zero sensor_4ch
   /\ (Sensor.NUM_CH pins_4ch <= 4 < MAX_CH)%nat)
  /\ Sensor.filt sensor_4ch !!! 4%nat = F32.zero
  /\ Sensor.baseline sensor_4ch !!! 4%nat = F32.zero
  /\ Sensor.pkt_v (Sensor.pkt sensor_4ch) !!! 4%nat = 0.
Proof.
  assert (Hi : (Sensor.NUM_CH pins_4ch <= 4 < MAX_CH)%nat) by (vm_compute; lia).
  split; [split; [apply sensor_4ch_reachable | exact Hi]|].
  apply (unconfigured_channels_untouched pins_4ch 250 lroundf_zero sensor_4ch 4%nat
           sensor_4ch_reachable Hi).
Defined.

Lemma send_within_struct_4ch :
  let t := Sensor.Tick 123456 reads_5000 in
  let r := Sensor.loop pins_4ch 250 lroundf_zero t sensor_4ch in
  let c := sent (Some (snd r)) in
  (Sensor.reachable pins_4ch 250 lroundf_zero sensor_4ch /\ r = (fst r, Some c))
  /\ 11 <= Sensor.len c <= sizeof_TouchPacket
  /\ Z.of_nat (length (Sensor.image (Sensor.pkt (fst r)))) = sizeof_TouchPacket
  /\ Sensor.data c = take (Z.to_nat (Sensor.len c)) (Sensor.image (Sensor.pkt (fst r))).
Proof.
  cbv zeta. split.
  - split; [apply sensor_4ch_reachable | vm_compute; reflexivity].
  - apply (send_within_struct pins_4ch 250 lroundf_zero sensor_4ch
             (fst (Sensor.loop pins_4ch 250 lroundf_zero
                     (Sensor.Tick 123456 reads_5000) sensor_4ch))
             (Sensor.Tick 123456 reads_5000)).
    + apply sensor_4ch_reachable.
    + vm_compute. reflexivity.
Defined.

Lemma sensor_to_serial_4ch :
  let t := Sensor.Tick 123456 reads_5000 in
  let r := Sensor.loop pins_4ch 250 lroundf_zero t sensor_4ch in
  let c := sent (Some (snd r)) in
  (Sensor.reachable pins_4ch 250 lroundf_zero sensor_4ch /\ r = (fst r, Some c))
  /\ exists macf idf sq ms n vs,
      fields (snd (Hub.loop (Hub.onRecv mac_A1 (Sensor.data c) Hub.boot)))
      = Some ("touch"%string :: macf :: idf :: sq :: ms :: n :: vs)
      /\ parse_dec sq = Sensor.seq sensor_4ch
      /\ parse_dec ms = u32 (Sensor.uptime t)
      /\ parse_dec n = Z.of_nat (Sensor.NUM_CH pins_4ch)
      /\ map parse_dec vs
         = map (fun i => Sensor.clamp16
                           (s32 (Sensor.lroundf lroundf_zero (Sensor.filt (fst r) !!! i))))
               (seq 0 (Sensor.NUM_CH pins_4ch)).
Proof.
  cbv zeta. split.
  - split; [apply sensor_4ch_reachable | vm_compute; reflexivity].
  - apply (sensor_to_serial pins_4ch 250 lroundf_zero sensor_4ch
             (fst (Sensor.loop pins_4ch 250 lroundf_zero
                     (Sensor.Tick 123456 reads_5000) sensor_4ch))
             (Sensor.Tick 123456 reads_5000)).
    + apply sensor_4ch_reachable.
    + vm_compute. reflexivity.
Defined.

(** The line the hub prints for the first datagram of that sensor. *)
Example sensor_to_serial_line :
  snd (Hub.loop
         (Hub.onRecv mac_A1
            (Sensor.data (sent (Some (snd (Sensor.loop pins_4ch 250 lroundf_zero
                                             (Sensor.Tick 123456 reads_5000)
                                             sensor_4ch)))))
            Hub.boot))
  = ("touch,A1B2C3D4E5F6,D4E5F6,0,123456,4,5000,5000,5000,5000"
     ++ String LF EmptyString)%string.
Proof. vm_compute. reflexivity. Qed.
